(** * clima-rapido-web: the local history store of [static/js/app.js]

    A shallow embedding of the search-history store (getHistory, setHistory,
    upsertCity, deleteCity, clearHistoryAll, togglePin, renameCity) and of the
    name normalizer (normalizeCity, cityRegex), with the properties the
    specification states about them.

    Modelling conventions.
    - A JS string is a sequence of UTF-16 code units.  The string algorithms
      of the normalizer and of the city pattern ([trim], the two [replace]
      calls, [cityRegex.test]) are defined on such sequences, [list N], with
      the whole white-space table of [\s] and [trim].
    - The classes [\p{L}] and [\p{M}] of the pattern are tables of the
      regular-expression engine, not of app.js: they are a parameter
      ([unicode_tables]).
    - The names the history store holds are [string]s, that is sequences of
      code units below 256 (Latin-1), on which [toLowerCase] is the table
      given below; [Str.units] reads such a name as code units, and the
      [string] versions of the string algorithms are their restrictions to
      these names.
    - A timestamp is an integer number of milliseconds ([Z]), as [Date.now()]
      returns it.
    - [localStorage], the clock behind [Date.now()] and the [alert] dialogs
      form an explicit [world] threaded through a state monad. *)

From Stdlib Require Import ZArith Ascii String Sorted Permutation.
From stdpp Require Import base tactics option list sorting strings.

Open Scope Z_scope.

(* ===================================================================== *)
(** ** Characters *)
(* ===================================================================== *)

(** The Unicode property classes [\p{L}] (letters) and [\p{M}] (marks) as
    the regular-expression engine tabulates them, one test per code point.
    The tables are not part of app.js; they are taken as a parameter. *)
Record unicode_tables : Type := Tables {
  is_L : N -> bool;
  is_M : N -> bool
}.

Module Char.

Definition code (c : ascii) : N := N_of_ascii c.

Definition between (lo hi : N) (c : ascii) : bool :=
  ((lo <=? code c) && (code c <=? hi))%N.

(** [lo <= u <= hi] on code units and code points. *)
Definition within (lo hi u : N) : bool := ((lo <=? u) && (u <=? hi))%N.

(** The class [\s], which is also what [String.prototype.trim] strips:
    TAB, LF, VT, FF, CR, SPACE, NBSP, U+1680, U+2000 to U+200A, the line
    and paragraph separators U+2028 and U+2029, U+202F, U+205F, U+3000
    and the byte order mark U+FEFF. *)
Definition is_space (u : N) : bool :=
  within 9 13 u || (u =? 32)%N || (u =? 160)%N || (u =? 5760)%N
  || within 8192 8202 u || (u =? 8232)%N || (u =? 8233)%N
  || (u =? 8239)%N || (u =? 8287)%N || (u =? 12288)%N || (u =? 65279)%N.

(** [[A-Za-z]] *)
Definition is_ascii_letter (u : N) : bool := within 65 90 u || within 97 122 u.

(** [[0-9]] *)
Definition is_digit (u : N) : bool := within 48 57 u.

(** [toLowerCase] on one code unit below 256: A-Z and the accented
    capitals 192..222 (but 215, the multiplication sign) move up by 32. *)
Definition to_lower (c : ascii) : ascii :=
  if between 65 90 c || (between 192 222 c && negb (code c =? 215)%N)
  then ascii_of_N (code c + 32) else c.

(** [toUpperCase] on one code unit, as far as the normalizer uses it:
    it is only ever applied to code units of [[A-Za-z]]. *)
Definition to_upper_ascii (u : N) : N :=
  if within 97 122 u then (u - 32)%N else u.

Definition comma : N := 44%N.
Definition space : N := 32%N.

(** The bracket of [cityRegex], [[\p{L}\p{M}0-9\s,'\.\-]], on a code
    point. *)
Definition in_city_class (U : unicode_tables) (c : N) : bool :=
  is_L U c || is_M U c || is_digit c || is_space c
  || (c =? 44)%N   (* , *)
  || (c =? 39)%N   (* ' *)
  || (c =? 46)%N   (* . *)
  || (c =? 45)%N.  (* - *)

(** The two halves of a surrogate pair. *)
Definition is_high_surrogate (u : N) : bool := within 55296 56319 u.
Definition is_low_surrogate (u : N) : bool := within 56320 57343 u.

End Char.

(* ===================================================================== *)
(** ** Strings: trim, toLowerCase, length *)
(* ===================================================================== *)

Module Str.

Definition chars (s : string) : list ascii := list_ascii_of_string s.
Definition of_chars (l : list ascii) : string := string_of_list_ascii l.

(** The code units of a name, and the name made of code units below 256. *)
Definition units (s : string) : list N := map Char.code (chars s).
Definition of_units (l : list N) : string := of_chars (map ascii_of_N l).

Fixpoint drop_spaces (l : list N) : list N :=
  match l with
  | c :: r => if Char.is_space c then drop_spaces r else l
  | [] => []
  end.

(** [s.trim()] on the code units of any string. *)
Definition trim_units (l : list N) : list N :=
  rev (drop_spaces (rev (drop_spaces l))).

(** [s.trim()] on a name. *)
Definition trim (s : string) : string := of_units (trim_units (units s)).

(** [s.toLowerCase()] *)
Definition toLowerCase (s : string) : string :=
  of_chars (map Char.to_lower (chars s)).

(** [s.length] *)
Definition length (s : string) : Z := Z.of_nat (List.length (chars s)).

(** Truthiness of a string: [!s] holds of the empty string only. *)
Definition truthy (s : string) : bool :=
  match s with EmptyString => false | _ => true end.

(** The code points the [u] flag makes a pattern read: a high surrogate
    followed by a low one is one code point, any other code unit stands
    for itself. *)
Fixpoint code_points (l : list N) : list N :=
  match l with
  | [] => []
  | h :: r =>
      match r with
      | lo :: r' =>
          if Char.is_high_surrogate h && Char.is_low_surrogate lo
          then (65536 + (h - 55296) * 1024 + (lo - 56320))%N :: code_points r'
          else h :: code_points r
      | [] => [h]
      end
  end.

End Str.

(* ===================================================================== *)
(** ** The name normalizer and the city pattern (app.js 226-233) *)
(* ===================================================================== *)

(** [v.replace(/\s+/g, ' ')]: every maximal run of white space becomes one
    space.  [in_run] tells that the previous code unit was white space. *)
Fixpoint collapse_ws (in_run : bool) (l : list N) : list N :=
  match l with
  | [] => []
  | c :: r =>
      if Char.is_space c
      then (if in_run then collapse_ws true r
            else Char.space :: collapse_ws true r)
      else c :: collapse_ws false r
  end.

(** What [\s*([A-Za-z]{2})$] matches right after a comma: the two letters
    of the group, when the rest of the input is white space followed by
    exactly two ASCII letters. *)
Definition cc_tail (r : list N) : option (N * N) :=
  match Str.drop_spaces r with
  | [x; y] =>
      if Char.is_ascii_letter x && Char.is_ascii_letter y
      then Some (x, y) else None
  | _ => None
  end.

(** [v.replace(/,\s*([A-Za-z]{2})$/, (_, cc) => `, ${cc.toUpperCase()}`)]:
    the leftmost comma from which the pattern matches is rewritten, with
    everything after it, to comma, space and the two letters in capitals.
    The pattern has no [g] flag and ends in [$], so there is at most one
    replacement. *)
Fixpoint replace_cc (l : list N) : list N :=
  match l with
  | [] => []
  | c :: r =>
      if (c =? Char.comma)%N then
        match cc_tail r with
        | Some (x, y) =>
            [Char.comma; Char.space;
             Char.to_upper_ascii x; Char.to_upper_ascii y]
        | None => c :: replace_cc r
        end
      else c :: replace_cc r
  end.

(** app.js 228-233 on the code units of any string. *)
Definition normalize_units (l : list N) : list N :=
  replace_cc (collapse_ws false (Str.trim_units l)).

(** app.js 228-233 on a name. *)
Definition normalizeCity (value : string) : string :=
  Str.of_units (normalize_units (Str.units value)).

(** The optional group [(,\s?[A-Za-z]{2})?] of [cityRegex], matched
    against the whole rest of the input (the pattern ends in [$]). *)
Definition cc_group (l : list N) : bool :=
  match l with
  | [] => true
  | [c; x; y] =>
      (c =? Char.comma)%N
      && Char.is_ascii_letter x && Char.is_ascii_letter y
  | [c; s; x; y] =>
      (c =? Char.comma)%N && Char.is_space s
      && Char.is_ascii_letter x && Char.is_ascii_letter y
  | _ => false
  end.

(** [cityRegex.test(s)] for
    [/^[\p{L}\p{M}0-9\s,'\.\-]{1,80}(,\s?[A-Za-z]{2})?$/u] on the code
    units of any string: read as code points, some prefix of 1 to 80
    members of the bracket is followed by the optional group and the end
    of the input. *)
Definition cityRegex_units (U : unicode_tables) (l : list N) : bool :=
  let p := Str.code_points l in
  existsb
    (fun k => (k <=? List.length p)%nat
              && forallb (Char.in_city_class U) (take k p)
              && cc_group (drop k p))
    (seq 1 80).

(** [cityRegex.test(s)] on a name. *)
Definition cityRegex (U : unicode_tables) (s : string) : bool :=
  cityRegex_units U (Str.units s).

(* ===================================================================== *)
(** ** History entries and their order *)
(* ===================================================================== *)

(** The objects [{name, pinned, ts}] of the history array. *)
Record entry : Type := Entry { name : string; pinned : bool; ts : Z }.

(** The comparator handed to [sort]:
    [(a,b) => (b.pinned - a.pinned) || (b.ts - a.ts)]. *)
Definition compare_entries (a b : entry) : Z :=
  let d := Z.b2z (pinned b) - Z.b2z (pinned a) in
  if d =? 0 then ts b - ts a else d.

(** [Array.prototype.sort(cmp)].  The sort is stable, and for a comparator
    that is a consistent total preorder (as [compare_entries] is) its
    result is the one stable sorted arrangement of the array; insertion
    from the right computes it ([js_sort_perm], [js_sort_sorted] and
    [js_sort_stable] below). *)
Section js_sort.
Context {A : Type} (cmp : A -> A -> Z).

Fixpoint sort_insert (x : A) (l : list A) : list A :=
  match l with
  | [] => [x]
  | y :: r => if cmp x y <=? 0 then x :: l else y :: sort_insert x r
  end.

Definition js_sort (l : list A) : list A := foldr sort_insert [] l.

(** [x] and [y] compare as equal. *)
Definition tied (x y : A) : bool := (cmp x y <=? 0) && (cmp y x <=? 0).
End js_sort.

(** [x.name.toLowerCase() === n.toLowerCase()] *)
Definition same_name (n : string) (x : entry) : bool :=
  String.eqb (Str.toLowerCase (name x)) (Str.toLowerCase n).

(** [arr.findIndex(p)]: the first index whose element satisfies [p],
    together with that element; [None] stands for the result [-1]. *)
Definition findIndex {A} (p : A -> bool) (l : list A) : option (nat * A) :=
  list_find (fun x => p x = true) l.

(* ===================================================================== *)
(** ** The world: localStorage, the clock, the dialogs *)
(* ===================================================================== *)

(** An object of a stored array, as far as [getHistory] reads it.  A field
    is [None] when the object lacks it; a field that is present has the
    type [setHistory] writes.  Fields of another type, which [getHistory]
    coerces with [String], [Boolean] and [Number.isFinite], are outside
    the model. *)
Record stored_obj : Type :=
  Stored { so_name : option string; so_pinned : option bool; so_ts : option Z }.

(** What [JSON.parse] makes of the stored text: a value that is not an
    array, the legacy array of name strings (non-empty), or an array of
    objects (possibly empty).  Arrays that mix strings with other values
    are outside the model. *)
Inductive json_doc : Type :=
  | JOther
  | JStrings (first : string) (rest : list string)
  | JObjects (objs : list stored_obj).

(** The item under [LS_KEY]: absent, a text [JSON.parse] rejects, or a
    text that parses. *)
Inductive item : Type :=
  | NoItem
  | BadText
  | Text (d : json_doc).

(** The three messages [renameCity] can [alert]. *)
Inductive alert_msg : Type := AlertEmpty | AlertTooLong | AlertBadFormat.

(** [clock w k] is what the [k]-th call of [Date.now()] returns; [ticks w]
    counts the calls made so far. *)
Record world : Type := World {
  localStorage : item;
  clock : nat -> Z;
  ticks : nat;
  alerts : list alert_msg
}.

Definition M (A : Type) : Type := world -> A * world.

Definition ret {A} (a : A) : M A := fun w => (a, w).
Definition bind {A B} (m : M A) (k : A -> M B) : M B :=
  fun w => let (a, w') := m w in k a w'.

Notation "'let*' x ':=' m 'in' k" := (bind m (fun x => k))
  (at level 10, x name, m at level 100, k at level 200).

Definition result {A} (m : M A) (w : world) : A := fst (m w).
Definition after {A} (m : M A) (w : world) : world := snd (m w).

(** [Date.now()] *)
Definition Date_now : M Z :=
  fun w => (clock w (ticks w),
            World (localStorage w) (clock w) (S (ticks w)) (alerts w)).

(** [localStorage.getItem(LS_KEY)] *)
Definition getItem : M item := fun w => (localStorage w, w).

(** [localStorage.setItem(LS_KEY, text)], the text given by its parse. *)
Definition setItem (d : json_doc) : M unit :=
  fun w => (tt, World (Text d) (clock w) (ticks w) (alerts w)).

(** [alert(msg)] *)
Definition alert (m : alert_msg) : M unit :=
  fun w => (tt, World (localStorage w) (clock w) (ticks w) (alerts w ++ [m])).

(** [JSON.parse(localStorage.getItem(LS_KEY) || '[]')]; [None] is the
    exception the [catch] of [getHistory] absorbs. *)
Definition parse_item (it : item) : option json_doc :=
  match it with
  | NoItem => Some (JObjects [])
  | BadText => None
  | Text d => Some d
  end.

(** [arr.map((name, i) => ({ name, pinned:false, ts: now - i }))] *)
Definition migrate (now : Z) (names : list string) : list entry :=
  imap (fun i nm => Entry nm false (now - Z.of_nat i)) names.

(** The object literal of the second [map] in [getHistory]:
    [String(o?.name || '').trim()], [Boolean(o?.pinned)] and
    [Number.isFinite(o?.ts) ? o.ts : Date.now()]. *)
Definition sanitize (o : stored_obj) : M entry :=
  let nm := Str.trim (default EmptyString (so_name o)) in
  let pn := default false (so_pinned o) in
  match so_ts o with
  | Some t => ret (Entry nm pn t)
  | None => let* now := Date_now in ret (Entry nm pn now)
  end.

Fixpoint sanitize_all (l : list stored_obj) : M (list entry) :=
  match l with
  | [] => ret []
  | o :: r => let* e := sanitize o in let* es := sanitize_all r in ret (e :: es)
  end.

(** app.js 97-115 *)
Definition getHistory : M (list entry) :=
  let* it := getItem in
  match parse_item it with
  | None => ret []
  | Some JOther => ret []
  | Some (JStrings s r) => let* now := Date_now in ret (migrate now (s :: r))
  | Some (JObjects l) =>
      let* arr := sanitize_all l in
      ret (List.filter (fun o => Str.truthy (name o)) arr)
  end.

(** [JSON.stringify] of one entry, read back by [JSON.parse]. *)
Definition to_stored (e : entry) : stored_obj :=
  Stored (Some (name e)) (Some (pinned e)) (Some (ts e)).

(** app.js 116-118 *)
Definition setHistory (arr : list entry) : M unit :=
  setItem (JObjects (map to_stored arr)).

(* ===================================================================== *)
(** ** The store operations (app.js 120-199) *)
(* ===================================================================== *)

(** app.js 121-138 *)
Definition upsertCity (nm : string) : M (list entry) :=
  let normalized := Str.trim nm in
  let* arr := getHistory in
  let i := findIndex (same_name normalized) arr in
  let* t := Date_now in
  let arr :=
    match i with
    | Some (i, _) => alter (fun e => Entry normalized (pinned e) t) i arr
    | None => Entry normalized false t :: arr
    end in
  let arr := js_sort compare_entries arr in
  let arr := take 8 arr in
  let* _ := setHistory arr in
  ret arr.

(** app.js 141-145 *)
Definition deleteCity (nm : string) : M (list entry) :=
  let* arr := getHistory in
  let arr := List.filter (fun x => negb (same_name nm x)) arr in
  let* _ := setHistory arr in
  ret arr.

(** app.js 148-151 *)
Definition clearHistoryAll : M (list entry) :=
  let* _ := setHistory [] in
  ret [].

(** app.js 154-164 *)
Definition togglePin (nm : string) : M (list entry) :=
  let* arr := getHistory in
  match findIndex (same_name nm) arr with
  | Some (i, _) =>
      let* t := Date_now in
      let arr := alter (fun e => Entry (name e) (negb (pinned e)) t) i arr in
      let arr := js_sort compare_entries arr in
      let* _ := setHistory arr in
      ret arr
  | None => ret arr
  end.

(** The test [j >= 0 && j !== i] of [renameCity]: the index to merge into,
    if any. *)
Definition merge_target {A} (i : nat) (j : option (nat * A)) : option nat :=
  match j with
  | Some (j, _) => if decide (j = i) then None else Some j
  | None => None
  end.

(** app.js 167-199.  [answer] is what [prompt] returns when it is shown:
    [None] for a cancelled dialog, the typed text otherwise. *)
Definition renameCity (oldName : string) (normalizeFn : string -> string)
    (regex : string -> bool) (answer : option string) : M (list entry) :=
  let* current := getHistory in
  match findIndex (same_name oldName) current with
  | None => ret current
  | Some (i, src) =>
      match answer with
      | None => ret current
      | Some typed =>
          let nn := normalizeFn typed in
          if negb (Str.truthy nn) then let* _ := alert AlertEmpty in ret current
          else if 80 <? Str.length nn then let* _ := alert AlertTooLong in ret current
          else if negb (regex nn) then let* _ := alert AlertBadFormat in ret current
          else
            let j := findIndex (same_name nn) current in
            let* t := Date_now in
            let current :=
              match merge_target i j with
              | Some j =>
                  delete i
                    (alter (fun e => Entry (name e) (pinned e || pinned src) t)
                           j current)
              | None => alter (fun e => Entry nn (pinned e) t) i current
              end in
            let current := js_sort compare_entries current in
            let* _ := setHistory current in
            ret current
      end
  end.

(** One user action on the store, and a sequence of them.  A rename goes
    through [normalizeCity] and [cityRegex], as the chip handler calls it
    (app.js 437). *)
Inductive op : Type :=
  | Upsert (nm : string)
  | Delete (nm : string)
  | Toggle (nm : string)
  | Rename (oldName : string) (answer : option string)
  | Clear.

Definition run_op (U : unicode_tables) (o : op) : M (list entry) :=
  match o with
  | Upsert nm => upsertCity nm
  | Delete nm => deleteCity nm
  | Toggle nm => togglePin nm
  | Rename old answer => renameCity old normalizeCity (cityRegex U) answer
  | Clear => clearHistoryAll
  end.

(** The list in hand after a sequence of actions: the result of the last
    one, or what [getHistory] loads when there is none. *)
Fixpoint run_ops (U : unicode_tables) (os : list op) : M (list entry) :=
  match os with
  | [] => getHistory
  | [o] => run_op U o
  | o :: os' => let* _ := run_op U o in run_ops U os'
  end.

(* ===================================================================== *)
(** ** Escaping, the search form and the history refresh *)
(* ===================================================================== *)

(** The replacement table of [esc] (app.js 93): the ampersand, the two
    angle brackets, the double quote and the apostrophe become the
    entities amp, lt, gt, quot and #39; a character outside the bracket of
    the pattern is not matched and stays. *)
Definition esc_char (c : ascii) : list ascii :=
  if (Char.code c =? 38)%N then Str.chars "&amp;"
  else if (Char.code c =? 60)%N then Str.chars "&lt;"
  else if (Char.code c =? 62)%N then Str.chars "&gt;"
  else if (Char.code c =? 34)%N then Str.chars "&quot;"
  else if (Char.code c =? 39)%N then Str.chars "&#39;"
  else [c].

(** app.js 92-94: every character of the bracket, anywhere in [s] (the
    pattern has the [g] flag), is replaced by its entity. *)
Definition esc (s : string) : string :=
  Str.of_chars (flat_map esc_char (Str.chars s)).

(** The three messages [validateCityField] can show. *)
Inductive field_error : Type := ErrEmpty | ErrTooLong | ErrBadFormat.

(** The part of the page the form code reads and writes: the city input
    (its value, its [invalid] class and its [aria-invalid] attribute), the
    error line (its text, [None] for the empty text, and whether it is
    displayed) and the two selects. *)
Record form : Type := Form {
  city_value : string;
  city_invalid : bool;
  city_aria_invalid : bool;
  error_text : option field_error;
  error_shown : bool;
  units_value : string;
  lang_value : string
}.

(** The message [validateCityField] picks for a normalized value; [None]
    is the empty message. *)
Definition city_message (U : unicode_tables) (v : string) :
    option field_error :=
  if negb (Str.truthy v) then Some ErrEmpty
  else if 80 <? Str.length v then Some ErrTooLong
  else if negb (cityRegex U v) then Some ErrBadFormat
  else None.

(** app.js 235-256.  The normalized value has no line break, so the
    assignment to [city.value] stores it as it is. *)
Definition validateCityField (U : unicode_tables) (f : form) : bool * form :=
  let v := normalizeCity (city_value f) in
  match city_message U v with
  | Some msg =>
      (false, Form v true true (Some msg) true (units_value f) (lang_value f))
  | None =>
      (true, Form v false false None false (units_value f) (lang_value f))
  end.

(** [allowedUnits.has(u)] and [allowedLangs.has(l)] (app.js 222-223). *)
Definition allowedUnits (u : string) : bool :=
  String.eqb u "metric" || String.eqb u "imperial".

Definition allowedLangs (l : string) : bool :=
  String.eqb l "es" || String.eqb l "en".

(** app.js 259-262 *)
Definition sanitizeSelects (f : form) : form :=
  let u := if allowedUnits (units_value f) then units_value f
           else "metric"%string in
  let l := if allowedLangs (lang_value f) then lang_value f
           else "es"%string in
  Form (city_value f) (city_invalid f) (city_aria_invalid f)
       (error_text f) (error_shown f) u l.

(** The request body [{ city: q, units: units.value, lang: lang.value }]. *)
Record payload : Type :=
  Payload { p_city : string; p_units : string; p_lang : string }.

(** The submit handler up to the request (app.js 456-464):
    [sanitizeSelects()], [validateCityField()], and, when the field is
    valid, the payload with [q = city.value.trim()].  [None] is the early
    [return]. *)
Definition submit_payload (U : unicode_tables) (f : form) :
    option payload * form :=
  let f := sanitizeSelects f in
  let (ok, f) := validateCityField U f in
  if ok
  then (Some (Payload (Str.trim (city_value f)) (units_value f) (lang_value f)), f)
  else (None, f).

(** app.js 361-364: [upsertCity(name)] and then [renderHistory()], whose
    first step reads the list it draws with [getHistory()]; that list is
    the result here. *)
Definition saveHistory (nm : string) : M (list entry) :=
  let* _ := upsertCity nm in
  let* list := getHistory in
  ret list.

(* ===================================================================== *)
(** ** Vocabulary of the properties *)
(* ===================================================================== *)

(** The first code unit, if any, is not white space. *)
Definition head_ok (l : list N) : Prop :=
  match l with c :: _ => Char.is_space c = false | [] => True end.

(** The last code unit, if any, is not white space. *)
Fixpoint last_ok (l : list N) : Prop :=
  match l with
  | [] => True
  | [c] => Char.is_space c = false
  | _ :: r => last_ok r
  end.

(** Every white space is one plain space between two other code units.
    [after_space] tells that the previous position was a space or the
    start of the string. *)
Fixpoint tidy (after_space : bool) (l : list N) : bool :=
  match l with
  | [] => negb after_space
  | c :: r =>
      if Char.is_space c
      then negb after_space && (c =? Char.space)%N && tidy true r
      else tidy false r
  end.

(** Empty, or tidy from the start: the shape of a trimmed and collapsed
    string. *)
Definition clean (l : list N) : Prop := l = [] \/ tidy true l = true.

(** The tables class the letters A-Z and a-z as letters, as those of
    Unicode do. *)
Definition ascii_letters_in (U : unicode_tables) : Prop :=
  forall c, Char.is_ascii_letter c = true -> is_L U c = true.

(** Every code unit is below 256: the string is a name of the model. *)
Definition byte_ok (l : list N) : Prop := Forall (fun u => (u < 256)%N) l.

(** [a] may stand before [b]: pinned entries first, then the more recently
    touched. *)
Definition ranks_before (a b : entry) : Prop :=
  (pinned a = true /\ pinned b = false)
  \/ (pinned a = pinned b /\ ts b <= ts a).

(** Sorted by (pinned descending, ts descending): every entry may stand
    before every later one. *)
Definition ordered (l : list entry) : Prop := StronglySorted ranks_before l.

(** The array an upsert sorts: the loaded one with the matching entry
    renamed and re-stamped, or with a fresh unpinned entry in front. *)
Definition upsert_candidates (normalized : string) (t : Z)
    (arr : list entry) : list entry :=
  match findIndex (same_name normalized) arr with
  | Some (i, _) => alter (fun e => Entry normalized (pinned e) t) i arr
  | None => Entry normalized false t :: arr
  end.

(** What [Date.now()] returns when it is called right after [getHistory],
    as the operations do. *)
Definition now_after_load (w : world) : Z :=
  clock (after getHistory w) (ticks (after getHistory w)).

(** The item [setHistory arr] leaves in the store. *)
Definition store_of (arr : list entry) : item :=
  Text (JObjects (map to_stored arr)).

(** The three checks [renameCity] makes on the normalized new name. *)
Definition valid_name (regex : string -> bool) (nn : string) : bool :=
  Str.truthy nn && negb (80 <? Str.length nn) && regex nn.

(** The array a rename sorts, for a source found at [i]. *)
Definition rename_candidates (i : nat) (src : entry) (nn : string) (t : Z)
    (arr : list entry) : list entry :=
  match merge_target i (findIndex (same_name nn) arr) with
  | Some j =>
      delete i (alter (fun e => Entry (name e) (pinned e || pinned src) t) j arr)
  | None => alter (fun e => Entry nn (pinned e) t) i arr
  end.

(** The key under which the store compares names. *)
Definition key (e : entry) : string := Str.toLowerCase (name e).

(** No two entries have names that are equal under case-insensitive
    comparison. *)
Definition unique (l : list entry) : Prop := NoDup (map key l).

(** No name carries white space at either end. *)
Definition trimmed (l : list entry) : Prop :=
  Forall (fun e => Str.trim (name e) = name e) l.

(** One record that [setHistory] wrote, as [getHistory] reads it back:
    the name is trimmed again. *)
Definition retrim (e : entry) : entry :=
  Entry (Str.trim (name e)) (pinned e) (ts e).

(** The names [getHistory] loads are a function of the stored item. *)
Definition loaded_names (it : item) : list string :=
  match parse_item it with
  | Some (JStrings s r) => s :: r
  | Some (JObjects l) =>
      List.filter Str.truthy
        (map (fun o => Str.trim (default EmptyString (so_name o))) l)
  | _ => []
  end.

(** The key under which an upsert looks its argument up. *)
Definition upsert_key (nm : string) : string := Str.toLowerCase (Str.trim nm).

(** The argument does not consist of white space only. *)
Definition nonblank (nm : string) : Prop := Str.truthy (Str.trim nm) = true.

(** No entry has the empty name. *)
Definition named (l : list entry) : Prop :=
  Forall (fun e => Str.truthy (name e) = true) l.

(** [p] is a prefix of [l]. *)
Fixpoint starts_with (p l : list ascii) : bool :=
  match p, l with
  | [], _ => true
  | a :: p', b :: l' => Ascii.eqb a b && starts_with p' l'
  | _ :: _, [] => false
  end.

(** The character an entity stands for and the number of characters of
    the entity after its ampersand, when [r] starts with one of the five
    entity tails. *)
Definition entity_after (r : list ascii) : option (ascii * nat) :=
  if starts_with (Str.chars "amp;") r then Some ("&"%char, 4%nat)
  else if starts_with (Str.chars "lt;") r then Some ("<"%char, 3%nat)
  else if starts_with (Str.chars "gt;") r then Some (">"%char, 3%nat)
  else if starts_with (Str.chars "quot;") r then Some (ascii_of_N 34, 5%nat)
  else if starts_with (Str.chars "#39;") r then Some ("'"%char, 4%nat)
  else None.

(** Every ampersand of [l] starts one of the five entities. *)
Fixpoint amp_ok (l : list ascii) : bool :=
  match l with
  | [] => true
  | c :: r =>
      (if (Char.code c =? 38)%N
       then match entity_after r with Some _ => true | None => false end
       else true)
      && amp_ok r
  end.

(** Reading the five entities back; [skip] characters of an entity are
    still to be passed over. *)
Fixpoint unesc_chars (skip : nat) (l : list ascii) : list ascii :=
  match l with
  | [] => []
  | c :: r =>
      match skip with
      | S k => unesc_chars k r
      | O =>
          if (Char.code c =? 38)%N
          then match entity_after r with
               | Some (d, n) => d :: unesc_chars n r
               | None => c :: unesc_chars 0 r
               end
          else c :: unesc_chars 0 r
      end
  end.

(** One of the four characters that open or close markup or an attribute
    value: the two angle brackets, the double quote, the apostrophe. *)
Definition is_markup (c : ascii) : bool :=
  (Char.code c =? 60)%N || (Char.code c =? 62)%N
  || (Char.code c =? 34)%N || (Char.code c =? 39)%N.

(** The stored object has no [ts] field. *)
Definition lacks_ts (o : stored_obj) : bool :=
  match so_ts o with None => true | Some _ => false end.

(** The alert [renameCity] raises for a normalized name it rejects: the
    first of the three checks that fails decides. *)
Definition rejection (regex : string -> bool) (nn : string) : option alert_msg :=
  if negb (Str.truthy nn) then Some AlertEmpty
  else if 80 <? Str.length nn then Some AlertTooLong
  else if negb (regex nn) then Some AlertBadFormat
  else None.

(* ===================================================================== *)
(** ** Sample worlds *)
(* ===================================================================== *)

(** The letters below U+0100: the ASCII letters, the ordinal indicators,
    the micro sign and the accented letters (all of 192..255 but the
    multiplication and division signs). *)
Definition latin1_letter (c : N) : bool :=
  Char.is_ascii_letter c
  || (c =? 170)%N || (c =? 181)%N || (c =? 186)%N
  || Char.within 192 214 c || Char.within 216 246 c || Char.within 248 255 c.

(** Sample tables for the scenarios, whose names stay below U+0100: the
    letters are those of that range, where there is no mark. *)
Definition latin1_tables : unicode_tables :=
  Tables latin1_letter (fun _ => false).

(** Tables that also know the combining acute accent U+0301 as a mark. *)
Definition accent_tables : unicode_tables :=
  Tables latin1_letter (fun c => (c =? 769)%N).

(** The code units of Jose written with a combining accent: J, o, s, e,
    U+0301. *)
Definition jose_decomposed : list N := [74; 111; 115; 101; 769]%N.

(** A clock that reads 1000, 1001, 1002, ... *)
Definition sample_clock : nat -> Z := fun k => 1000 + Z.of_nat k.

Definition paris_tokyo : world :=
  World (store_of [Entry "Tokyo" true 50; Entry "Paris" false 100])
        sample_clock 0 [].

(** The list of the toggle scenario of the specification. *)
Definition paris_then_tokyo : world :=
  World (store_of [Entry "Paris" false 100; Entry "Tokyo" true 50])
        sample_clock 0 [].

Definition legacy_two : world :=
  World (Text (JStrings "Tijuana" ["Paris"%string])) sample_clock 0 [].

Definition eight_pinned : world :=
  World (store_of (map (fun n => Entry n true 5)
                       ["a"; "b"; "c"; "d"; "e"; "f"; "g"; "h"]%string))
        sample_clock 0 [].

(** A stored legacy array whose names differ only by a trailing blank. *)
Definition legacy_padded : world :=
  World (Text (JStrings "a" ["a "%string])) sample_clock 0 [].

(** The same store after a first write: [deleteCity] of a name that is
    not there stores the two migrated entries as records. *)
Definition legacy_padded_written : world :=
  after (deleteCity "x") legacy_padded.

Definition tokyo_tijuana : world :=
  World (store_of [Entry "Tokyo" true 100; Entry "Tijuana" false 50])
        sample_clock 0 [].

Definition empty_store : world := World NoItem sample_clock 0 [].

Definition tijuana_stored : world :=
  World (store_of [Entry "Tijuana, MX" false 5]) sample_clock 0 [].

Definition case_variants : list string :=
  ["a"; "A"; "b"; "B"; "c"; "C"; "d"; "D"; "e"]%string.

Definition nine_names : list string :=
  ["a"; "b"; "c"; "d"; "e"; "f"; "g"; "h"; "i"]%string.

(** A form whose city field holds an untidy but acceptable name, and one
    whose selects were tampered with. *)
Definition form_tijuana : form :=
  Form "  tijuana ,mx " false false None false "metric" "es".

Definition form_tampered : form :=
  Form "Paris" true true (Some ErrEmpty) true "kelvin" "fr".

Definition rome_paris : world :=
  World (store_of [Entry "Rome" false 200; Entry "Paris" true 100])
        sample_clock 0 [].

(* ===================================================================== *)
(** * Properties *)
(* ===================================================================== *)

(** ** Characters and strings *)

Lemma within_spec lo hi u : Char.within lo hi u = true <-> (lo <= u <= hi)%N.
Proof. unfold Char.within. rewrite andb_true_iff, !N.leb_le. lia. Qed.

Lemma is_space_spec u :
  Char.is_space u = true
  <-> ((9 <= u <= 13) \/ u = 32 \/ u = 160 \/ u = 5760 \/ (8192 <= u <= 8202)
       \/ u = 8232 \/ u = 8233 \/ u = 8239 \/ u = 8287 \/ u = 12288
       \/ u = 65279)%N.
Proof.
  unfold Char.is_space.
  rewrite !orb_true_iff, !within_spec, !N.eqb_eq. tauto.
Qed.

Lemma is_ascii_letter_spec u :
  Char.is_ascii_letter u = true <-> ((65 <= u <= 90) \/ (97 <= u <= 122))%N.
Proof. unfold Char.is_ascii_letter. by rewrite orb_true_iff, !within_spec. Qed.

Lemma space_is_space : Char.is_space Char.space = true.
Proof. reflexivity. Qed.

Lemma comma_not_space : Char.is_space Char.comma = false.
Proof. reflexivity. Qed.

Lemma letter_not_space c :
  Char.is_ascii_letter c = true -> Char.is_space c = false.
Proof.
  intros H. apply is_ascii_letter_spec in H.
  destruct (Char.is_space c) eqn:E; [|done].
  apply is_space_spec in E. lia.
Qed.

Lemma upper_is_letter c :
  Char.is_ascii_letter c = true ->
  Char.is_ascii_letter (Char.to_upper_ascii c) = true.
Proof.
  intros H. unfold Char.to_upper_ascii.
  destruct (Char.within 97 122 c) eqn:E; [|done].
  apply within_spec in E. apply is_ascii_letter_spec. lia.
Qed.

Lemma upper_idem c :
  Char.to_upper_ascii (Char.to_upper_ascii c) = Char.to_upper_ascii c.
Proof.
  unfold Char.to_upper_ascii.
  destruct (Char.within 97 122 c) eqn:E; [|by rewrite E].
  apply within_spec in E.
  destruct (Char.within 97 122 (c - 32)) eqn:E'; [|done].
  apply within_spec in E'. lia.
Qed.

Lemma upper_lt_256 c :
  Char.is_ascii_letter c = true -> (Char.to_upper_ascii c < 256)%N.
Proof.
  intros H. apply upper_is_letter, is_ascii_letter_spec in H. lia.
Qed.

Lemma lower_idem c : Char.to_lower (Char.to_lower c) = Char.to_lower c.
Proof.
  destruct c as [[] [] [] [] [] [] [] []]; vm_compute; reflexivity.
Qed.

Lemma chars_of_chars l : Str.chars (Str.of_chars l) = l.
Proof. apply list_ascii_of_string_of_list_ascii. Qed.

(** *** Names and their code units *)

Lemma units_byte_ok s : byte_ok (Str.units s).
Proof.
  unfold byte_ok, Str.units. induction (Str.chars s) as [|c r IH];
    constructor; [apply N_ascii_bounded | exact IH].
Qed.

Lemma units_of_units l : byte_ok l -> Str.units (Str.of_units l) = l.
Proof.
  unfold Str.units, Str.of_units. rewrite chars_of_chars.
  induction 1 as [|u r Hu _ IH]; [done|]. cbn [map].
  rewrite IH. unfold Char.code. by rewrite N_ascii_embedding.
Qed.

Lemma of_units_units s : Str.of_units (Str.units s) = s.
Proof.
  unfold Str.of_units, Str.units, Str.of_chars, Str.chars, Char.code.
  rewrite map_map.
  rewrite (map_ext _ (fun c => c)) by (intros c; apply ascii_N_embedding).
  rewrite map_id. apply string_of_list_ascii_of_string.
Qed.

Lemma truthy_false_units s : Str.truthy s = false <-> Str.units s = [].
Proof. by destruct s. Qed.

Lemma byte_ok_drop_spaces l : byte_ok l -> byte_ok (Str.drop_spaces l).
Proof.
  induction 1 as [|u r Hu Hr IH]; simpl; [constructor|].
  destruct (Char.is_space u); [exact IH | by constructor].
Qed.

Lemma byte_ok_rev l : byte_ok l -> byte_ok (rev l).
Proof.
  unfold byte_ok. rewrite !List.Forall_forall. intros H u Hu.
  apply H. by apply in_rev.
Qed.

Lemma byte_ok_trim l : byte_ok l -> byte_ok (Str.trim_units l).
Proof.
  intros H. unfold Str.trim_units.
  by apply byte_ok_rev, byte_ok_drop_spaces, byte_ok_rev, byte_ok_drop_spaces.
Qed.

Lemma byte_ok_collapse b l : byte_ok l -> byte_ok (collapse_ws b l).
Proof.
  intros H. revert b. induction H as [|u r Hu Hr IH]; intros b; simpl;
    [constructor|].
  destruct (Char.is_space u).
  - destruct b; [apply IH|]. constructor; [done | apply IH].
  - constructor; [done | apply IH].
Qed.

Lemma byte_ok_replace_cc l : byte_ok l -> byte_ok (replace_cc l).
Proof.
  induction 1 as [|u r Hu Hr IH]; simpl; [constructor|].
  destruct (u =? Char.comma)%N; [|by constructor].
  destruct (cc_tail r) as [[x y]|] eqn:Et; [|by constructor].
  unfold cc_tail in Et.
  destruct (Str.drop_spaces r) as [|x' [|y' [|]]]; try discriminate.
  destruct (Char.is_ascii_letter x') eqn:Ex; [|discriminate].
  destruct (Char.is_ascii_letter y') eqn:Ey; [|discriminate].
  simpl in Et. injection Et as <- <-.
  repeat constructor; by apply upper_lt_256.
Qed.

Lemma byte_ok_normalize l : byte_ok l -> byte_ok (normalize_units l).
Proof.
  intros H. unfold normalize_units.
  by apply byte_ok_replace_cc, byte_ok_collapse, byte_ok_trim.
Qed.

(** The code units of a trimmed and of a normalized name. *)
Lemma units_trim s : Str.units (Str.trim s) = Str.trim_units (Str.units s).
Proof. apply units_of_units, byte_ok_trim, units_byte_ok. Qed.

Lemma units_normalizeCity s :
  Str.units (normalizeCity s) = normalize_units (Str.units s).
Proof. apply units_of_units, byte_ok_normalize, units_byte_ok. Qed.

(** A string without surrogates is its own sequence of code points. *)
Lemma code_points_byte_ok l : byte_ok l -> Str.code_points l = l.
Proof.
  induction 1 as [|u r Hu Hr IH]; [done|]. cbn [Str.code_points].
  destruct r as [|lo r']; [done|].
  replace (Char.is_high_surrogate u) with false; [cbn [andb]; by rewrite IH|].
  symmetry. apply not_true_is_false. unfold Char.is_high_surrogate.
  rewrite within_spec. lia.
Qed.

(** *** White space at the two ends *)

Lemma drop_spaces_head_ok l : head_ok (Str.drop_spaces l).
Proof.
  induction l as [|c r IH]; simpl; [exact I|].
  destruct (Char.is_space c) eqn:E; [exact IH | exact E].
Qed.

Lemma drop_spaces_fix l : head_ok l -> Str.drop_spaces l = l.
Proof. destruct l as [|c r]; simpl; [reflexivity|]. intros ->. reflexivity. Qed.

Lemma last_ok_snoc l c : last_ok (l ++ [c]) <-> Char.is_space c = false.
Proof.
  induction l as [|a r IH]; simpl; [reflexivity|].
  destruct (r ++ [c]) eqn:E; [by destruct r|]. exact IH.
Qed.

Lemma last_ok_rev l : last_ok l <-> head_ok (rev l).
Proof.
  destruct (rev l) as [|c r] eqn:E.
  - apply (f_equal (@rev _)) in E. rewrite rev_involutive in E. by subst.
  - apply (f_equal (@rev _)) in E. rewrite rev_involutive in E. subst l.
    simpl. apply last_ok_snoc.
Qed.

(** [drop_spaces] removes a prefix made of white space. *)
Lemma drop_spaces_split l :
  exists p, l = p ++ Str.drop_spaces l /\ Forall (fun c => Char.is_space c = true) p.
Proof.
  induction l as [|c r (p & Hp & Hall)]; simpl.
  - exists []. by split.
  - destruct (Char.is_space c) eqn:E.
    + exists (c :: p). split; [simpl; congruence | by constructor].
    + exists []. by split.
Qed.

Lemma trim_head_ok l : head_ok (Str.trim_units l).
Proof.
  unfold Str.trim_units.
  pose proof (drop_spaces_head_ok l) as Hh.
  destruct (drop_spaces_split (rev (Str.drop_spaces l))) as (p & Hp & _).
  set (m := Str.drop_spaces l) in *. set (k := Str.drop_spaces (rev m)) in *.
  apply (f_equal (@rev _)) in Hp. rewrite rev_involutive, rev_app_distr in Hp.
  destruct (rev k) as [|c r]; [exact I|].
  rewrite Hp in Hh. exact Hh.
Qed.

Lemma trim_last_ok l : last_ok (Str.trim_units l).
Proof.
  unfold Str.trim_units. apply last_ok_rev. rewrite rev_involutive.
  apply drop_spaces_head_ok.
Qed.

Lemma trim_units_fix l : head_ok l -> last_ok l -> Str.trim_units l = l.
Proof.
  intros Hh Hl. unfold Str.trim_units.
  rewrite (drop_spaces_fix l Hh).
  rewrite drop_spaces_fix by (by apply last_ok_rev).
  apply rev_involutive.
Qed.

Lemma trim_units_idem l : Str.trim_units (Str.trim_units l) = Str.trim_units l.
Proof. apply trim_units_fix; [apply trim_head_ok | apply trim_last_ok]. Qed.

Lemma trim_idem s : Str.trim (Str.trim s) = Str.trim s.
Proof. unfold Str.trim at 1. by rewrite units_trim, trim_units_idem. Qed.

(** *** Tidy strings: the normal form of trim-then-collapse *)

Lemma tidy_collapse b l : tidy b l = true -> collapse_ws b l = l.
Proof.
  revert b. induction l as [|c r IH]; intros b H; simpl in *; [reflexivity|].
  destruct (Char.is_space c) eqn:E.
  - apply andb_true_iff in H as [H Hr]. apply andb_true_iff in H as [Hb Hc].
    apply negb_true_iff in Hb. subst b.
    apply N.eqb_eq in Hc. subst c. by rewrite (IH true Hr).
  - by rewrite (IH false H).
Qed.

Lemma tidy_head_ok l : tidy true l = true -> head_ok l.
Proof.
  destruct l as [|c r]; simpl; [done|].
  destruct (Char.is_space c); [discriminate | done].
Qed.

Lemma tidy_last_ok b l : tidy b l = true -> last_ok l.
Proof.
  revert b. induction l as [|c r IH]; intros b H; [exact I|].
  simpl in H. destruct r as [|c' r'].
  - simpl. destruct (Char.is_space c); [|done].
    simpl in H. by rewrite andb_false_r in H.
  - change (last_ok (c' :: r')).
    destruct (Char.is_space c).
    + apply andb_true_iff in H as [_ H]. by apply (IH true).
    + by apply (IH false).
Qed.

Lemma collapse_head_ok b l : head_ok l -> collapse_ws b l = collapse_ws false l.
Proof. destruct l as [|c r]; simpl; [done|]. by intros ->. Qed.

Lemma clean_collapse l : clean l -> collapse_ws false l = l.
Proof.
  intros [-> | H]; [reflexivity|].
  rewrite <- (collapse_head_ok true) by (by apply tidy_head_ok).
  by apply tidy_collapse.
Qed.

Lemma clean_trim l : clean l -> Str.trim_units l = l.
Proof.
  intros [-> | H]; [reflexivity|].
  apply trim_units_fix; [by apply tidy_head_ok | by eapply tidy_last_ok].
Qed.

Lemma collapse_tidy l b :
  last_ok l -> (b = true -> l <> []) -> tidy b (collapse_ws b l) = true.
Proof.
  revert b. induction l as [|c r IH]; intros b Hl Hb; simpl.
  - destruct b; [by destruct Hb | done].
  - assert (Hr : last_ok r) by (destruct r; [exact I | exact Hl]).
    destruct (Char.is_space c) eqn:E.
    + assert (Hne : r <> []).
      { intros ->. simpl in Hl. congruence. }
      destruct b; simpl; by apply IH.
    + simpl. rewrite E. by apply IH.
Qed.

Lemma trim_collapse_clean l : clean (collapse_ws false (Str.trim_units l)).
Proof.
  pose proof (trim_head_ok l) as Hh. pose proof (trim_last_ok l) as Hl.
  destruct (Str.trim_units l) as [|c r] eqn:E; [by left|].
  right. rewrite <- (collapse_head_ok true) by exact Hh.
  by apply collapse_tidy.
Qed.

(** *** The country-code replacement *)

Lemma tidy_replace_cc b l : tidy b l = true -> tidy b (replace_cc l) = true.
Proof.
  revert b. induction l as [|c r IH]; intros b H; [done|].
  simpl in *. destruct (c =? Char.comma)%N eqn:Ec.
  - apply N.eqb_eq in Ec. subst c. rewrite comma_not_space in H.
    destruct (cc_tail r) as [[x y]|] eqn:Et.
    + unfold cc_tail in Et.
      destruct (Str.drop_spaces r) as [|x' [|y' [|]]]; try discriminate.
      destruct (Char.is_ascii_letter x') eqn:Ex; [|discriminate].
      destruct (Char.is_ascii_letter y') eqn:Ey; [|discriminate].
      simpl in Et. injection Et as <- <-.
      cbn [tidy]. rewrite comma_not_space, space_is_space.
      rewrite (letter_not_space _ (upper_is_letter _ Ex)).
      by rewrite (letter_not_space _ (upper_is_letter _ Ey)).
    + cbn [tidy]. rewrite comma_not_space. by apply IH.
  - simpl. destruct (Char.is_space c).
    + apply andb_true_iff in H as [H1 H2]. rewrite H1. simpl. by apply IH.
    + by apply IH.
Qed.

Lemma clean_replace_cc l : clean l -> clean (replace_cc l).
Proof. intros [-> | H]; [by left | right; by apply tidy_replace_cc]. Qed.

(** A replacement leaves at least four code units after any leading
    white space; otherwise the input is returned as it is. *)
Lemma replace_cc_shape l :
  replace_cc l = l \/ (4 <= length (Str.drop_spaces (replace_cc l)))%nat.
Proof.
  induction l as [|c r IH]; [by left|]. simpl.
  destruct (c =? Char.comma)%N eqn:Ec.
  - apply N.eqb_eq in Ec. subst c.
    destruct (cc_tail r) as [[x y]|].
    + right. simpl. lia.
    + destruct IH as [-> | IH]; [by left|]. right.
      cbn [Str.drop_spaces]. rewrite comma_not_space. simpl.
      pose proof (drop_spaces_split (replace_cc r)) as (p & Hp & _).
      apply (f_equal (@length _)) in Hp. rewrite length_app in Hp. lia.
  - destruct IH as [-> | IH]; [by left|]. right.
    cbn [Str.drop_spaces]. destruct (Char.is_space c); [exact IH|].
    simpl. pose proof (drop_spaces_split (replace_cc r)) as (p & Hp & _).
    apply (f_equal (@length _)) in Hp. rewrite length_app in Hp. lia.
Qed.

Lemma cc_tail_replace_cc r : cc_tail r = None -> cc_tail (replace_cc r) = None.
Proof.
  intros H. destruct (replace_cc_shape r) as [-> | Hlen]; [exact H|].
  unfold cc_tail.
  destruct (Str.drop_spaces (replace_cc r)) as [|x [|y [|z t]]];
    simpl in Hlen; try reflexivity; lia.
Qed.

Lemma replace_cc_idem l : replace_cc (replace_cc l) = replace_cc l.
Proof.
  induction l as [|c r IH]; [done|]. simpl.
  destruct (c =? Char.comma)%N eqn:Ec.
  - destruct (cc_tail r) as [[x y]|] eqn:Et.
    + unfold cc_tail in Et.
      destruct (Str.drop_spaces r) as [|x' [|y' [|]]]; try discriminate.
      destruct (Char.is_ascii_letter x') eqn:Ex; [|discriminate].
      destruct (Char.is_ascii_letter y') eqn:Ey; [|discriminate].
      simpl in Et. injection Et as <- <-.
      cbn [replace_cc]. change (Char.comma =? Char.comma)%N with true.
      cbv iota. unfold cc_tail. cbn [Str.drop_spaces].
      rewrite space_is_space.
      rewrite (letter_not_space _ (upper_is_letter _ Ex)).
      rewrite (upper_is_letter _ Ex), (upper_is_letter _ Ey). simpl.
      by rewrite !upper_idem.
    + simpl. rewrite Ec, (cc_tail_replace_cc _ Et). by rewrite IH.
  - simpl. rewrite Ec. by rewrite IH.
Qed.

Lemma normalize_units_clean l : clean (normalize_units l).
Proof. apply clean_replace_cc, trim_collapse_clean. Qed.

Lemma normalize_units_idem l :
  normalize_units (normalize_units l) = normalize_units l.
Proof.
  unfold normalize_units at 1.
  rewrite (clean_trim _ (normalize_units_clean l)).
  rewrite (clean_collapse _ (normalize_units_clean l)).
  apply replace_cc_idem.
Qed.

Lemma trim_normalizeCity s : Str.trim (normalizeCity s) = normalizeCity s.
Proof.
  unfold Str.trim. rewrite units_normalizeCity.
  by rewrite (clean_trim _ (normalize_units_clean _)).
Qed.

Lemma normalizeCity_fix s : normalizeCity (normalizeCity s) = normalizeCity s.
Proof.
  unfold normalizeCity at 1. by rewrite units_normalizeCity, normalize_units_idem.
Qed.

(** ** The order on entries and the sort *)

Lemma compare_entries_le a b : compare_entries a b <= 0 <-> ranks_before a b.
Proof.
  unfold compare_entries, ranks_before.
  destruct (pinned a), (pinned b); simpl; split; intros H;
    try lia; try (right; split; [reflexivity | lia]);
    try (destruct H as [[? ?] | [? ?]]; (discriminate || lia));
    left; by split.
Qed.

Lemma ranks_before_trans a b c :
  ranks_before a b -> ranks_before b c -> ranks_before a c.
Proof.
  unfold ranks_before.
  destruct (pinned a), (pinned b), (pinned c); intros [[? ?]|[? ?]] [[? ?]|[? ?]];
    try discriminate; (by left) || (right; split; [done | lia]).
Qed.

Lemma ranks_before_total a b : ranks_before a b \/ ranks_before b a.
Proof.
  unfold ranks_before. destruct (pinned a), (pinned b);
    destruct (Z_le_gt_dec (ts b) (ts a)); auto; right; right; split; (done || lia).
Qed.

Section js_sort_facts.
Context {A : Type} (cmp : A -> A -> Z).
Let before (x y : A) : Prop := cmp x y <= 0.
Hypothesis before_trans : forall x y z, before x y -> before y z -> before x z.
Hypothesis before_total : forall x y, before x y \/ before y x.

Lemma sort_insert_perm x l : Permutation (sort_insert cmp x l) (x :: l).
Proof using Type.
  induction l as [|y r IH]; simpl; [done|].
  destruct (cmp x y <=? 0); [done|].
  rewrite IH. apply perm_swap.
Qed.

Lemma js_sort_perm l : Permutation (js_sort cmp l) l.
Proof using Type.
  induction l as [|x r IH]; simpl; [done|].
  rewrite sort_insert_perm. by constructor.
Qed.

Lemma sort_insert_sorted x l :
  StronglySorted before l -> StronglySorted before (sort_insert cmp x l).
Proof using before_trans before_total.
  induction 1 as [|y r Hr IH Hy]; simpl.
  - repeat constructor.
  - destruct (Z.leb_spec (cmp x y) 0) as [Hxy | Hxy].
    + constructor; [by constructor|]. constructor; [exact Hxy|].
      eapply Forall_impl; [exact Hy|]. intros z Hz. by eapply before_trans.
    + constructor; [exact IH|].
      rewrite sort_insert_perm. constructor; [|exact Hy].
      destruct (before_total x y) as [H|H]; [unfold before in H; lia | exact H].
Qed.

Lemma js_sort_sorted l : StronglySorted before (js_sort cmp l).
Proof using before_trans before_total.
  induction l as [|x r IH]; simpl; [constructor | by apply sort_insert_sorted].
Qed.

(** The sort is stable: entries that compare as equal keep their order. *)
Lemma sort_insert_stable x0 x l :
  List.filter (tied cmp x0) (sort_insert cmp x l)
  = List.filter (tied cmp x0) (x :: l).
Proof using before_trans.
  induction l as [|y r IH]; [done|]. cbn [sort_insert].
  destruct (Z.leb_spec (cmp x y) 0) as [Hxy | Hxy]; [done|].
  cbn [List.filter] in *. rewrite IH.
  destruct (tied cmp x0 y) eqn:Hy, (tied cmp x0 x) eqn:Hx; try done.
  unfold tied in Hx, Hy.
  apply andb_true_iff in Hx as [_ Hx]. apply andb_true_iff in Hy as [Hy _].
  apply Z.leb_le in Hx, Hy.
  pose proof (before_trans x x0 y Hx Hy) as H. unfold before in H. lia.
Qed.

Lemma js_sort_stable x0 l :
  List.filter (tied cmp x0) (js_sort cmp l) = List.filter (tied cmp x0) l.
Proof using before_trans.
  induction l as [|x r IH]; [done|]. cbn [js_sort foldr].
  fold (js_sort cmp r). rewrite sort_insert_stable.
  cbn [List.filter]. by rewrite IH.
Qed.

(** Sorting an array that is already in order changes nothing. *)
Lemma js_sort_fix l : StronglySorted before l -> js_sort cmp l = l.
Proof using Type.
  induction 1 as [|y r Hr IH Hy]; simpl; [done|].
  rewrite IH. destruct r as [|z r]; [done|]. simpl.
  apply Forall_cons in Hy as [Hyz _]. unfold before in Hyz.
  destruct (Z.leb_spec (cmp y z) 0); [done | lia].
Qed.
End js_sort_facts.

Lemma StronglySorted_weaken {A} (R S : A -> A -> Prop) l :
  (forall x y, R x y -> S x y) -> StronglySorted R l -> StronglySorted S l.
Proof.
  intros HRS. induction 1 as [|x r Hr IH Hx]; constructor; [exact IH|].
  eapply Forall_impl; [exact Hx | exact (HRS x)].
Qed.

Lemma sort_ordered l : ordered (js_sort compare_entries l).
Proof.
  unfold ordered.
  eapply (StronglySorted_weaken (fun x y => compare_entries x y <= 0)).
  { intros x y. apply compare_entries_le. }
  apply js_sort_sorted.
  - intros x y z. rewrite !compare_entries_le. apply ranks_before_trans.
  - intros x y. rewrite !compare_entries_le. apply ranks_before_total.
Qed.

Lemma sort_perm l : Permutation (js_sort compare_entries l) l.
Proof. apply js_sort_perm. Qed.

Lemma sort_length l : length (js_sort compare_entries l) = length l.
Proof. apply Permutation_length, sort_perm. Qed.

Lemma ordered_take n l : ordered l -> ordered (take n l).
Proof.
  intros H. rewrite <- (take_drop n l) in H.
  by apply StronglySorted_app_1_l in H.
Qed.

Lemma ordered_filter (p : entry -> bool) l :
  ordered l -> ordered (List.filter p l).
Proof.
  induction 1 as [|x r Hr IH Hx]; simpl; [constructor|].
  destruct (p x); [|exact IH]. constructor; [exact IH|].
  apply Forall_forall. intros y Hy. rewrite list_elem_of_In in Hy.
  apply filter_In in Hy as [Hy _].
  rewrite Forall_forall in Hx. apply Hx. by apply list_elem_of_In.
Qed.

(** ** What the operations read and write *)

(** [getHistory] only reads the store: the item and the dialogs are left
    as they were, and so is the clock function (its reading position may
    advance). *)
Lemma sanitize_all_world l w :
  localStorage (after (sanitize_all l) w) = localStorage w
  /\ alerts (after (sanitize_all l) w) = alerts w
  /\ clock (after (sanitize_all l) w) = clock w.
Proof.
  revert w. induction l as [|o r IH]; intros w; [done|].
  unfold after in *. simpl. unfold bind, sanitize.
  destruct (so_ts o) as [t|]; simpl.
  - specialize (IH w). destruct (sanitize_all r w) as [es w']. exact IH.
  - unfold bind. simpl.
    set (w1 := World _ _ _ _).
    specialize (IH w1). destruct (sanitize_all r w1) as [es w']. exact IH.
Qed.

Lemma getHistory_world w :
  localStorage (after getHistory w) = localStorage w
  /\ alerts (after getHistory w) = alerts w
  /\ clock (after getHistory w) = clock w.
Proof.
  unfold after, getHistory, bind, getItem.
  destruct (parse_item (localStorage w)) as [[| s r | l]|]; simpl; try done.
  pose proof (sanitize_all_world l w) as H. unfold after in H.
  destruct (sanitize_all l w) as [arr w']. exact H.
Qed.

Lemma getHistory_storage w arr w1 :
  getHistory w = (arr, w1) -> localStorage w1 = localStorage w.
Proof.
  intros E. pose proof (getHistory_world w) as [H _].
  unfold after in H. by rewrite E in H.
Qed.

Lemma upsertCity_eq nm w arr w1 :
  getHistory w = (arr, w1) ->
  upsertCity nm w =
    let r := take 8 (js_sort compare_entries
                       (upsert_candidates (Str.trim nm)
                                          (clock w1 (ticks w1)) arr)) in
    (r, World (store_of r) (clock w1) (S (ticks w1)) (alerts w1)).
Proof.
  intros E. unfold upsertCity, bind. rewrite E. simpl.
  unfold upsert_candidates.
  by destruct (findIndex (same_name (Str.trim nm)) arr) as [[i x]|].
Qed.

Lemma deleteCity_eq nm w arr w1 :
  getHistory w = (arr, w1) ->
  deleteCity nm w =
    let r := List.filter (fun x => negb (same_name nm x)) arr in
    (r, World (store_of r) (clock w1) (ticks w1) (alerts w1)).
Proof. intros E. unfold deleteCity, bind. by rewrite E. Qed.

Lemma togglePin_eq nm w arr w1 :
  getHistory w = (arr, w1) ->
  togglePin nm w =
    match findIndex (same_name nm) arr with
    | Some (i, _) =>
        let r := js_sort compare_entries
                   (alter (fun e => Entry (name e) (negb (pinned e))
                                          (clock w1 (ticks w1))) i arr) in
        (r, World (store_of r) (clock w1) (S (ticks w1)) (alerts w1))
    | None => (arr, w1)
    end.
Proof.
  intros E. unfold togglePin, bind. rewrite E.
  by destruct (findIndex (same_name nm) arr) as [[i x]|].
Qed.

Lemma renameCity_valid_eq old nf rx typed w arr w1 i src :
  getHistory w = (arr, w1) ->
  findIndex (same_name old) arr = Some (i, src) ->
  valid_name rx (nf typed) = true ->
  renameCity old nf rx (Some typed) w =
    let r := js_sort compare_entries
               (rename_candidates i src (nf typed) (clock w1 (ticks w1)) arr) in
    (r, World (store_of r) (clock w1) (S (ticks w1)) (alerts w1)).
Proof.
  intros E Hi Hv. unfold renameCity, bind. rewrite E, Hi.
  unfold valid_name in Hv.
  apply andb_true_iff in Hv as [Hv Hrx]. apply andb_true_iff in Hv as [Ht Hl].
  rewrite Ht. apply negb_true_iff in Hl. rewrite Hl, Hrx. simpl.
  unfold rename_candidates.
  by destruct (merge_target i (findIndex (same_name (nf typed)) arr)).
Qed.

(** On any other path [renameCity] hands back the loaded array and writes
    nothing. *)
Lemma renameCity_abort_eq old nf rx answer w arr w1 :
  getHistory w = (arr, w1) ->
  findIndex (same_name old) arr = None
  \/ answer = None
  \/ (exists typed, answer = Some typed /\ valid_name rx (nf typed) = false) ->
  result (renameCity old nf rx answer) w = arr
  /\ localStorage (after (renameCity old nf rx answer) w) = localStorage w.
Proof.
  intros E H. pose proof (getHistory_storage _ _ _ E) as Hs.
  unfold result, after, renameCity, bind. rewrite E.
  destruct (findIndex (same_name old) arr) as [[i src]|] eqn:Hi; [|done].
  destruct H as [H | [-> | (typed & -> & Hv)]]; [done | done |].
  unfold valid_name in Hv.
  destruct (Str.truthy (nf typed)); simpl in *; [|done].
  destruct (80 <? Str.length (nf typed)); simpl in *; [done|].
  destruct (rx (nf typed)); simpl in *; done.
Qed.

Lemma renameCity_cases old nf rx answer w arr w1 :
  getHistory w = (arr, w1) ->
  (result (renameCity old nf rx answer) w = arr
   /\ localStorage (after (renameCity old nf rx answer) w) = localStorage w)
  \/ (exists i src typed,
        findIndex (same_name old) arr = Some (i, src)
        /\ answer = Some typed
        /\ valid_name rx (nf typed) = true
        /\ renameCity old nf rx answer w =
             let r := js_sort compare_entries
                        (rename_candidates i src (nf typed)
                                           (clock w1 (ticks w1)) arr) in
             (r, World (store_of r) (clock w1) (S (ticks w1)) (alerts w1))).
Proof.
  intros E.
  destruct (findIndex (same_name old) arr) as [[i src]|] eqn:Hi.
  2:{ left. eapply renameCity_abort_eq; eauto. }
  destruct answer as [typed|].
  2:{ left. eapply renameCity_abort_eq; eauto. }
  destruct (valid_name rx (nf typed)) eqn:Hv.
  - right. exists i, src, typed. split_and!; try done.
    by apply renameCity_valid_eq.
  - left. eapply renameCity_abort_eq; eauto 6.
Qed.

(** ** C1: the order invariant *)

(** C1.  From a loaded history that is sorted by (pinned descending, ts
    descending), each of the five mutating operations returns a list that
    is sorted in the same way -- [deleteCity] too, which filters without
    sorting again.  What an operation writes to the store is the list it
    returns; otherwise it leaves the stored item alone. *)
Theorem order_invariant_after_mutation (U : unicode_tables)
    (w : world) (o : op) :
  ordered (result getHistory w) ->
  ordered (result (run_op U o) w)
  /\ (localStorage (after (run_op U o) w) = store_of (result (run_op U o) w)
      \/ localStorage (after (run_op U o) w) = localStorage w).
Proof.
  destruct (getHistory w) as [arr w1] eqn:E.
  assert (Hr : result getHistory w = arr) by (unfold result; by rewrite E).
  rewrite Hr. intros Hord. pose proof (getHistory_storage _ _ _ E) as Hs.
  destruct o as [nm | nm | nm | old answer |]; simpl.
  - unfold result, after. rewrite (upsertCity_eq _ _ _ _ E). simpl.
    split; [|by left]. apply ordered_take, sort_ordered.
  - unfold result, after. rewrite (deleteCity_eq _ _ _ _ E). simpl.
    split; [|by left]. by apply ordered_filter.
  - unfold result, after. rewrite (togglePin_eq _ _ _ _ E).
    destruct (findIndex (same_name nm) arr) as [[i x]|]; simpl.
    + split; [|by left]. apply sort_ordered.
    + split; [done | by right].
  - destruct (renameCity_cases old normalizeCity (cityRegex U) answer _ _ _ E)
      as [[-> ->] | (i & src & typed & _ & _ & _ & Heq)].
    + split; [done | by right].
    + unfold result, after. rewrite Heq. simpl.
      split; [|by left]. apply sort_ordered.
  - split; [constructor | by left].
Qed.

Lemma order_invariant_after_mutation_witness :
  ordered (result getHistory paris_tokyo)
  /\ ordered (result (run_op latin1_tables (Delete "Tokyo")) paris_tokyo)
  /\ (localStorage (after (run_op latin1_tables (Delete "Tokyo")) paris_tokyo)
        = store_of (result (run_op latin1_tables (Delete "Tokyo")) paris_tokyo)
      \/ localStorage (after (run_op latin1_tables (Delete "Tokyo")) paris_tokyo)
        = localStorage paris_tokyo).
Proof.
  assert (H : ordered (result getHistory paris_tokyo)).
  { vm_compute. repeat constructor. }
  split; [exact H|].
  exact (order_invariant_after_mutation latin1_tables paris_tokyo (Delete "Tokyo") H).
Defined.

(** ** C5: a rejected new name changes nothing *)

(** C5.  When the normalized new name is empty, longer than 80 characters
    or outside the city pattern, [renameCity] returns the loaded list as it
    is and does not write to the store. *)
Theorem rename_rejects_invalid_name (U : unicode_tables)
    (w : world) (old typed : string) :
  Str.truthy (normalizeCity typed) = false
  \/ 80 < Str.length (normalizeCity typed)
  \/ cityRegex U (normalizeCity typed) = false ->
  result (renameCity old normalizeCity (cityRegex U) (Some typed)) w
    = result getHistory w
  /\ localStorage (after (renameCity old normalizeCity (cityRegex U)
                                     (Some typed)) w)
    = localStorage w.
Proof.
  intros H. destruct (getHistory w) as [arr w1] eqn:E.
  assert (Hr : result getHistory w = arr) by (unfold result; by rewrite E).
  rewrite Hr. eapply renameCity_abort_eq; [exact E|].
  right. right. exists typed. split; [done|]. unfold valid_name.
  destruct H as [-> | [H | ->]]; [done | | by rewrite andb_false_r].
  apply Z.ltb_lt in H. rewrite H. simpl. by rewrite andb_false_r.
Qed.

Lemma rename_rejects_invalid_name_witness :
  (Str.truthy (normalizeCity "   ") = false
   \/ 80 < Str.length (normalizeCity "   ")
   \/ cityRegex latin1_tables (normalizeCity "   ") = false)
  /\ result (renameCity "Paris" normalizeCity (cityRegex latin1_tables)
                        (Some "   ")) paris_tokyo
       = result getHistory paris_tokyo
  /\ localStorage
       (after (renameCity "Paris" normalizeCity (cityRegex latin1_tables)
                          (Some "   ")) paris_tokyo)
       = localStorage paris_tokyo.
Proof.
  split; [left; reflexivity|].
  apply (rename_rejects_invalid_name latin1_tables paris_tokyo "Paris" "   ").
  left. reflexivity.
Defined.

(** ** C8: a name that is not in the list *)

Lemma findIndex_None {A} (p : A -> bool) l :
  findIndex p l = None <-> Forall (fun x => p x = false) l.
Proof.
  unfold findIndex. rewrite list_find_None. apply Forall_proper; [|done].
  intros x. by destruct (p x).
Qed.

Lemma filter_keeps_all {A} (p : A -> bool) l :
  Forall (fun x => p x = true) l -> List.filter p l = l.
Proof.
  induction 1 as [|x r Hx _ IH]; simpl; [done|]. by rewrite Hx, IH.
Qed.

(** C8.  For a name that matches no entry of the loaded list, [deleteCity],
    [togglePin] and [renameCity] return that list unchanged.  [deleteCity]
    writes the same list back; the other two write nothing.  The three
    are total functions of the world: there is no failing outcome. *)
Theorem not_found_is_noop (w : world) (nm : string) :
  Forall (fun x => same_name nm x = false) (result getHistory w) ->
  (result (deleteCity nm) w = result getHistory w
   /\ localStorage (after (deleteCity nm) w) = store_of (result getHistory w))
  /\ (result (togglePin nm) w = result getHistory w
      /\ localStorage (after (togglePin nm) w) = localStorage w)
  /\ (forall nf rx answer,
        result (renameCity nm nf rx answer) w = result getHistory w
        /\ localStorage (after (renameCity nm nf rx answer) w) = localStorage w).
Proof.
  destruct (getHistory w) as [arr w1] eqn:E.
  assert (Hr : result getHistory w = arr) by (unfold result; by rewrite E).
  rewrite !Hr. intros Hno. pose proof (getHistory_storage _ _ _ E) as Hs.
  assert (Hfind : findIndex (same_name nm) arr = None) by by apply findIndex_None.
  split_and!.
  - unfold result. rewrite (deleteCity_eq _ _ _ _ E). simpl.
    apply filter_keeps_all. eapply Forall_impl; [exact Hno|].
    intros x ->. done.
  - unfold after. rewrite (deleteCity_eq _ _ _ _ E). simpl.
    f_equal. apply filter_keeps_all. eapply Forall_impl; [exact Hno|].
    intros x ->. done.
  - unfold result. by rewrite (togglePin_eq _ _ _ _ E), Hfind.
  - unfold after. by rewrite (togglePin_eq _ _ _ _ E), Hfind.
  - intros nf rx answer. eapply renameCity_abort_eq; eauto.
Qed.

Lemma not_found_is_noop_witness :
  Forall (fun x => same_name "Nonexistent" x = false)
         (result getHistory paris_tokyo)
  /\ result (deleteCity "Nonexistent") paris_tokyo = result getHistory paris_tokyo.
Proof.
  split; [repeat constructor|].
  apply (not_found_is_noop paris_tokyo "Nonexistent").
  repeat constructor.
Defined.

(** ** C9: loading legacy, missing and malformed data *)

Lemma migrate_names now l : map name (migrate now l) = l.
Proof.
  unfold migrate. rewrite fmap_imap.
  rewrite <- (list_fmap_id l) at 2. rewrite <- imap_const.
  by apply imap_ext.
Qed.

Lemma migrate_pinned now l :
  map pinned (migrate now l) = map (fun _ => false) l.
Proof.
  unfold migrate. rewrite fmap_imap. rewrite <- imap_const.
  by apply imap_ext.
Qed.

Lemma migrate_ts now l :
  map ts (migrate now l)
  = map (fun i => now - Z.of_nat i) (seq 0 (length l)).
Proof.
  unfold migrate. rewrite fmap_imap.
  exact (imap_seq_0 l (fun i => now - Z.of_nat i)).
Qed.

Lemma descending_from now k n :
  StronglySorted (fun a b => b < a)
    (map (fun i => now - Z.of_nat i) (seq k n)).
Proof.
  revert k. induction n as [|n IH]; intros k; simpl; constructor; [apply IH|].
  apply Forall_forall. intros x Hx. apply list_elem_of_In in Hx.
  apply in_map_iff in Hx as (i & <- & Hi). apply in_seq in Hi. lia.
Qed.

Lemma StronglySorted_map {A B} (R : B -> B -> Prop) (f : A -> B) l :
  StronglySorted R (map f l) <-> StronglySorted (fun a b => R (f a) (f b)) l.
Proof.
  induction l as [|x r IH]; simpl; split; intros H; try constructor;
    inversion H; subst; try (by apply IH).
  - by rewrite Forall_fmap in *.
  - by rewrite Forall_fmap.
Qed.

(** C9.  A stored legacy array of name strings loads as records with those
    names in the stored order, all unpinned, entry [i] stamped [now - i]
    (so the stamps descend strictly), and [getHistory] leaves the stored
    item as it was, on every world.  A missing item, a text that does not
    parse and a value that is not an array load as the empty list. *)
Theorem getHistory_legacy_and_malformed (clk : nat -> Z) (k : nat)
    (al : list alert_msg) :
  (forall s r,
     let w := World (Text (JStrings s r)) clk k al in
     let now := clk k in
     map name (result getHistory w) = s :: r
     /\ map pinned (result getHistory w) = map (fun _ => false) (s :: r)
     /\ map ts (result getHistory w)
        = map (fun i => now - Z.of_nat i) (seq 0 (S (length r)))
     /\ StronglySorted (fun a b => ts b < ts a) (result getHistory w)
     /\ localStorage (after getHistory w) = Text (JStrings s r))
  /\ result getHistory (World NoItem clk k al) = []
  /\ result getHistory (World BadText clk k al) = []
  /\ result getHistory (World (Text JOther) clk k al) = []
  /\ (forall w, localStorage (after getHistory w) = localStorage w).
Proof.
  split_and!; try reflexivity.
  - intros s r w now.
    change (result getHistory w) with (migrate now (s :: r)).
    split_and!.
    + apply migrate_names.
    + apply migrate_pinned.
    + apply migrate_ts.
    + apply (StronglySorted_map (fun a b => b < a) ts).
      rewrite migrate_ts. apply descending_from.
    + reflexivity.
  - intros w. apply getHistory_world.
Qed.

(** ** C10: eight pinned entries leave no room for a new one *)

(** An unpinned entry sinks below every pinned one. *)
Lemma sort_insert_unpinned_last x l :
  pinned x = false -> Forall (fun y => pinned y = true) l ->
  sort_insert compare_entries x l = l ++ [x].
Proof.
  intros Hx. induction 1 as [|y r Hy Hr IH]; simpl; [done|].
  unfold compare_entries at 1. rewrite Hx, Hy. simpl. by rewrite IH.
Qed.

Lemma findIndex_same_name_Some n l i x :
  findIndex (same_name n) l = Some (i, x) ->
  l !! i = Some x /\ same_name n x = true.
Proof. unfold findIndex. rewrite list_find_Some. intros (? & ? & _). auto. Qed.

(** C10.  With eight loaded entries, all pinned, and a name that matches
    none of them, [upsertCity] returns and stores the eight old entries in
    sorted order: the fresh unpinned entry sorts last and is cut off, so
    no entry of the result bears the upserted name. *)
Theorem upsert_evicts_new_when_all_pinned (w : world) (nm : string) :
  length (result getHistory w) = 8%nat ->
  Forall (fun x => pinned x = true) (result getHistory w) ->
  Forall (fun x => same_name (Str.trim nm) x = false) (result getHistory w) ->
  result (upsertCity nm) w = js_sort compare_entries (result getHistory w)
  /\ Forall (fun x => same_name (Str.trim nm) x = false) (result (upsertCity nm) w)
  /\ localStorage (after (upsertCity nm) w) = store_of (result (upsertCity nm) w).
Proof.
  destruct (getHistory w) as [arr w1] eqn:E.
  assert (Hr : result getHistory w = arr) by (unfold result; by rewrite E).
  rewrite !Hr. intros Hlen Hpin Hno.
  unfold result, after. rewrite (upsertCity_eq _ _ _ _ E). simpl.
  unfold upsert_candidates.
  rewrite (proj2 (findIndex_None _ _) Hno). simpl.
  rewrite sort_insert_unpinned_last; [|done|].
  2:{ eapply Forall_forall. intros y Hy.
      rewrite (sort_perm arr) in Hy. by eapply Forall_forall in Hpin. }
  rewrite take_app_length' by (by rewrite sort_length).
  split_and!; [done | | done].
  eapply Forall_forall. intros y Hy.
  rewrite (sort_perm arr) in Hy. by eapply Forall_forall in Hno.
Qed.

Lemma upsert_evicts_new_when_all_pinned_witness :
  (length (result getHistory eight_pinned) = 8%nat
   /\ Forall (fun x => pinned x = true) (result getHistory eight_pinned)
   /\ Forall (fun x => same_name (Str.trim "Tijuana") x = false)
             (result getHistory eight_pinned))
  /\ result (upsertCity "Tijuana") eight_pinned
       = js_sort compare_entries (result getHistory eight_pinned).
Proof.
  split; [split_and!; [reflexivity | repeat constructor | repeat constructor]|].
  apply (upsert_evicts_new_when_all_pinned eight_pinned "Tijuana");
    [reflexivity | repeat constructor | repeat constructor].
Defined.

(** ** C7: the normalizer is idempotent *)

(** C7.  Normalizing twice is normalizing once, for every string: the
    first half is about any sequence of UTF-16 code units (white space of
    any part of the table, code units above U+00FF and lone surrogates
    included), the second is the same fact for the names of the store.
    The normalizer is a function of its argument alone: it takes no world
    and returns none, so it reads and writes nothing and equal arguments
    give equal results. *)
Theorem normalizeCity_idempotent :
  (forall l : list N, normalize_units (normalize_units l) = normalize_units l)
  /\ (forall s : string, normalizeCity (normalizeCity s) = normalizeCity s).
Proof. split; [apply normalize_units_idem | apply normalizeCity_fix]. Qed.

(** ** Names: case-insensitive keys, uniqueness, trimmed names *)

Lemma same_name_key n x : same_name n x = true <-> key x = Str.toLowerCase n.
Proof. unfold same_name, key. apply String.eqb_eq. Qed.

Lemma same_name_false_key n x :
  same_name n x = false <-> key x <> Str.toLowerCase n.
Proof. unfold same_name, key. apply String.eqb_neq. Qed.

Lemma unique_alt l :
  unique l <->
  forall i j a b, l !! i = Some a -> l !! j = Some b ->
                  Str.toLowerCase (name a) = Str.toLowerCase (name b) -> i = j.
Proof.
  unfold unique. rewrite NoDup_alt. split.
  - intros H i j a b Ha Hb Hk. apply (H i j (key a)).
    + by rewrite list_lookup_fmap, Ha.
    + rewrite list_lookup_fmap, Hb. simpl. unfold key. by rewrite Hk.
  - intros H i j k Hi Hj. rewrite list_lookup_fmap in Hi, Hj.
    destruct (l !! i) as [a|] eqn:Ha; [|done].
    destruct (l !! j) as [b|] eqn:Hb; [|done].
    simpl in *. apply (H i j a b Ha Hb). unfold key in *. congruence.
Qed.

Lemma findIndex_None_key n l :
  findIndex (same_name n) l = None <-> Str.toLowerCase n ∉ map key l.
Proof.
  rewrite findIndex_None, list_elem_of_fmap, Forall_forall. split.
  - intros H (x & Hk & Hx). apply H in Hx. apply same_name_false_key in Hx. done.
  - intros H x Hx. apply same_name_false_key. intros Hk. apply H. by exists x.
Qed.

Lemma filter_sublist {A} (p : A -> bool) l : List.filter p l `sublist_of` l.
Proof.
  induction l as [|x r IH]; simpl; [done|].
  destruct (p x); [by apply sublist_skip | by apply sublist_cons].
Qed.

Lemma unique_sublist l k : l `sublist_of` k -> unique k -> unique l.
Proof.
  unfold unique. intros H Hk. eapply sublist_NoDup; [exact Hk|].
  by apply fmap_sublist.
Qed.

Lemma unique_perm l k : Permutation l k -> unique k -> unique l.
Proof. unfold unique. intros H. by rewrite H. Qed.

Lemma trimmed_sublist l k : l `sublist_of` k -> trimmed k -> trimmed l.
Proof.
  unfold trimmed. induction 1 as [|x l k _ IH|x l k _ IH]; [done | |].
  - intros [Hx Hk]%Forall_cons. constructor; auto.
  - intros [_ Hk]%Forall_cons. auto.
Qed.

Lemma trimmed_perm l k : Permutation l k -> trimmed k -> trimmed l.
Proof. unfold trimmed. intros H. by rewrite H. Qed.

(** Rewriting one entry without changing its key leaves the keys as they
    are. *)
Lemma keys_alter_same (f : entry -> entry) i l x :
  l !! i = Some x -> key (f x) = key x -> map key (alter f i l) = map key l.
Proof.
  intros Hx Hk. apply list_eq. intros j. rewrite !list_lookup_fmap.
  destruct (decide (i = j)) as [<-|Hne].
  - rewrite list_lookup_alter_eq, Hx. simpl. by rewrite Hk.
  - by rewrite list_lookup_alter_ne.
Qed.

Lemma keys_alter (f : entry -> entry) i l x :
  l !! i = Some x -> map key (alter f i l) = <[i := key (f x)]> (map key l).
Proof.
  intros Hx. apply list_eq. intros j. rewrite !list_lookup_fmap.
  destruct (decide (i = j)) as [<-|Hne].
  - rewrite list_lookup_alter_eq, Hx. simpl.
    rewrite list_lookup_insert_eq; [done|].
    rewrite length_fmap. by eapply lookup_lt_Some.
  - rewrite list_lookup_alter_ne by done.
    by rewrite list_lookup_insert_ne, list_lookup_fmap.
Qed.

Lemma NoDup_insert_fresh {A} (l : list A) i x :
  NoDup l -> x ∉ l -> NoDup (<[i := x]> l).
Proof.
  intros Hnd Hx. destruct (l !! i) as [y0|] eqn:Hi.
  2:{ apply lookup_ge_None in Hi. by rewrite list_insert_ge. }
  rewrite insert_take_drop by (by eapply lookup_lt_Some).
  rewrite <- (take_drop_middle l i y0 Hi) in Hnd, Hx.
  rewrite NoDup_app in Hnd. destruct Hnd as (H1 & H2 & H3).
  apply NoDup_cons in H3 as [H3 H4].
  rewrite not_elem_of_app, not_elem_of_cons in Hx. destruct Hx as (Hx1 & _ & Hx2).
  apply NoDup_app. split_and!; [done | | by apply NoDup_cons].
  intros y Hy [-> | Hy']%elem_of_cons; [done|].
  apply (H2 y Hy). by right.
Qed.

Lemma trimmed_alter (f : entry -> entry) i l :
  (forall x, Str.trim (name x) = name x -> Str.trim (name (f x)) = name (f x)) ->
  trimmed l -> trimmed (alter f i l).
Proof.
  intros Hf Hl. unfold trimmed in *. rewrite Forall_lookup in *.
  intros j y Hy. destruct (decide (i = j)) as [<-|Hne].
  - rewrite list_lookup_alter_eq in Hy.
    destruct (l !! i) as [x|] eqn:Hx; [|done]. simpl in Hy. injection Hy as <-.
    apply Hf. exact (Hl i x Hx).
  - rewrite list_lookup_alter_ne in Hy by done. exact (Hl j y Hy).
Qed.

(** ** What one operation does to the loaded list *)

(** The outcome of an operation, relative to the list [arr] it loaded:
    either it hands [arr] back and leaves the stored item alone, or it
    stores the list it returns, which is one of five shapes. *)
Lemma run_op_cases (U : unicode_tables) o w arr w1 :
  getHistory w = (arr, w1) ->
  (result (run_op U o) w = arr
   /\ localStorage (after (run_op U o) w) = localStorage w)
  \/ (localStorage (after (run_op U o) w) = store_of (result (run_op U o) w)
      /\ ((exists nm t, o = Upsert nm
             /\ result (run_op U o) w
                = take 8 (js_sort compare_entries
                            (upsert_candidates (Str.trim nm) t arr)))
          \/ (exists nm, o = Delete nm
                /\ result (run_op U o) w
                   = List.filter (fun x => negb (same_name nm x)) arr)
          \/ (exists nm i x t, o = Toggle nm
                /\ findIndex (same_name nm) arr = Some (i, x)
                /\ result (run_op U o) w
                   = js_sort compare_entries
                       (alter (fun e => Entry (name e) (negb (pinned e)) t) i arr))
          \/ (exists old typed i src t, o = Rename old (Some typed)
                /\ findIndex (same_name old) arr = Some (i, src)
                /\ valid_name (cityRegex U) (normalizeCity typed) = true
                /\ result (run_op U o) w
                   = js_sort compare_entries
                       (rename_candidates i src (normalizeCity typed) t arr))
          \/ (o = Clear /\ result (run_op U o) w = []))).
Proof.
  intros E. pose proof (getHistory_storage _ _ _ E) as Hs.
  destruct o as [nm | nm | nm | old answer |]; simpl.
  - right. unfold result, after. rewrite (upsertCity_eq _ _ _ _ E). simpl.
    split; [done|]. left. eauto.
  - right. unfold result, after. rewrite (deleteCity_eq _ _ _ _ E). simpl.
    split; [done|]. right. left. eauto.
  - unfold result, after. rewrite (togglePin_eq _ _ _ _ E).
    destruct (findIndex (same_name nm) arr) as [[i x]|] eqn:Hi; simpl.
    + right. split; [done|]. right. right. left. eauto 10.
    + by left.
  - destruct (renameCity_cases old normalizeCity (cityRegex U) answer _ _ _ E)
      as [H | (i & src & typed & Hi & -> & Hv & Heq)]; [by left|].
    right. unfold result, after. rewrite Heq. simpl.
    split; [done|]. do 3 right. left. eauto 10.
  - right. split; [done|]. do 4 right. done.
Qed.

Lemma sanitize_all_stored r w :
  sanitize_all (map to_stored r) w = (map retrim r, w).
Proof.
  induction r as [|e r IH]; [done|].
  simpl. unfold bind. simpl. by rewrite IH.
Qed.

Lemma getHistory_store_of r c k a :
  getHistory (World (store_of r) c k a)
  = (List.filter (fun e => Str.truthy (name e)) (map retrim r),
     World (store_of r) c k a).
Proof.
  unfold getHistory, bind, getItem. simpl. unfold bind.
  by rewrite sanitize_all_stored.
Qed.

Lemma retrim_trimmed r : trimmed r -> map retrim r = r.
Proof.
  induction 1 as [|e r He Hr IH]; simpl; [done|].
  rewrite IH. f_equal. destruct e as [n p t]. unfold retrim. simpl in *.
  by rewrite He.
Qed.

Lemma sanitize_all_names l w :
  map name (result (sanitize_all l) w)
  = map (fun o => Str.trim (default EmptyString (so_name o))) l.
Proof.
  revert w. induction l as [|o r IH]; intros w; [done|].
  unfold result in *. simpl. unfold bind, sanitize.
  destruct (so_ts o) as [t|]; simpl.
  - specialize (IH w). destruct (sanitize_all r w) as [es w']. simpl in *.
    by rewrite IH.
  - unfold bind. simpl. set (w1 := World _ _ _ _).
    specialize (IH w1). destruct (sanitize_all r w1) as [es w']. simpl in *.
    by rewrite IH.
Qed.

Lemma filter_map_name (p : string -> bool) l :
  map name (List.filter (fun e => p (name e)) l) = List.filter p (map name l).
Proof.
  induction l as [|e r IH]; simpl; [done|].
  destruct (p (name e)); simpl; by rewrite IH.
Qed.

Lemma getHistory_names w :
  map name (result getHistory w) = loaded_names (localStorage w).
Proof.
  unfold result, getHistory, loaded_names, bind, getItem.
  destruct (parse_item (localStorage w)) as [[| s r | l]|]; try done.
  - exact (migrate_names (clock w (ticks w)) (s :: r)).
  - simpl. pose proof (sanitize_all_names l w) as H. unfold result in H.
    destruct (sanitize_all l w) as [arr w']. simpl in *.
    by rewrite (filter_map_name Str.truthy), H.
Qed.

(** Uniqueness and trimmedness speak of the names only. *)
Lemma keys_of_names l : map key l = map Str.toLowerCase (map name l).
Proof. by rewrite <- list_fmap_compose. Qed.

Lemma unique_names l k : map name l = map name k -> unique l -> unique k.
Proof. unfold unique. intros H. by rewrite !keys_of_names, H. Qed.

Lemma trimmed_names l k : map name l = map name k -> trimmed l -> trimmed k.
Proof.
  unfold trimmed. intros H Hl.
  assert (Hn : forall m, Forall (fun e => Str.trim (name e) = name e) m
                         <-> Forall (fun n => Str.trim n = n) (map name m)).
  { intros m. by rewrite Forall_fmap. }
  apply Hn. rewrite <- H. by apply Hn.
Qed.

(** ** Each operation keeps names unique and trimmed *)

Lemma upsert_candidates_unique n t arr :
  unique arr -> unique (upsert_candidates n t arr).
Proof.
  intros Hu. unfold upsert_candidates.
  destruct (findIndex (same_name n) arr) as [[i x]|] eqn:Hi.
  - apply findIndex_same_name_Some in Hi as [Hx Hn].
    unfold unique. rewrite (keys_alter_same _ i arr x Hx); [done|].
    apply same_name_key in Hn. by rewrite Hn.
  - unfold unique. simpl. apply NoDup_cons. split; [|done].
    by apply findIndex_None_key.
Qed.

Lemma upsert_candidates_trimmed n t arr :
  Str.trim n = n -> trimmed arr -> trimmed (upsert_candidates n t arr).
Proof.
  intros Hn Ht. unfold upsert_candidates.
  destruct (findIndex (same_name n) arr) as [[i x]|].
  - by apply trimmed_alter.
  - by constructor.
Qed.

Lemma rename_candidates_unique old i src nn t arr :
  findIndex (same_name old) arr = Some (i, src) ->
  unique arr -> unique (rename_candidates i src nn t arr).
Proof.
  intros Hi Hu. apply findIndex_same_name_Some in Hi as [Hsrc _].
  unfold rename_candidates, merge_target.
  destruct (findIndex (same_name nn) arr) as [[j tgt]|] eqn:Hj.
  - apply findIndex_same_name_Some in Hj as [Htgt Hn]. apply same_name_key in Hn.
    destruct (decide (j = i)) as [-> | Hne].
    + unfold unique. rewrite (keys_alter_same _ i arr tgt Htgt); [done|].
      by rewrite Hn.
    + eapply unique_sublist; [apply sublist_delete|].
      unfold unique. by rewrite (keys_alter_same _ j arr tgt Htgt).
  - unfold unique. rewrite (keys_alter _ i arr src Hsrc).
    apply NoDup_insert_fresh; [done|]. by apply findIndex_None_key.
Qed.

Lemma rename_candidates_trimmed i src nn t arr :
  Str.trim nn = nn -> trimmed arr -> trimmed (rename_candidates i src nn t arr).
Proof.
  intros Hn Ht. unfold rename_candidates.
  destruct (merge_target i (findIndex (same_name nn) arr)) as [j|].
  - eapply trimmed_sublist; [apply sublist_delete|]. by apply trimmed_alter.
  - by apply trimmed_alter.
Qed.

(** One step of the invariant: from a loaded list with unique, trimmed
    names, the list an operation returns and the list the next operation
    will load both have unique, trimmed names. *)
Lemma run_op_keeps_names (U : unicode_tables) o w :
  unique (result getHistory w) -> trimmed (result getHistory w) ->
  (unique (result (run_op U o) w) /\ trimmed (result (run_op U o) w))
  /\ (unique (result getHistory (after (run_op U o) w))
      /\ trimmed (result getHistory (after (run_op U o) w))).
Proof.
  destruct (getHistory w) as [arr w1] eqn:E.
  assert (Hr : result getHistory w = arr) by (unfold result; by rewrite E).
  rewrite !Hr. intros Hu Ht.
  assert (Hres : unique (result (run_op U o) w) /\ trimmed (result (run_op U o) w)).
  { destruct (run_op_cases U o w arr w1 E) as [[-> _] | [_ Hshape]]; [done|].
    destruct Hshape as
      [(nm & t & _ & ->) | [(nm & _ & ->) | [(nm & i & x & t & _ & Hi & ->)
       | [(old & typed & i & src & t & _ & Hi & Hv & ->) | [_ ->]]]]].
    - split.
      + eapply unique_sublist; [apply sublist_take|].
        eapply unique_perm; [apply sort_perm|]. by apply upsert_candidates_unique.
      + eapply trimmed_sublist; [apply sublist_take|].
        eapply trimmed_perm; [apply sort_perm|].
        apply upsert_candidates_trimmed; [apply trim_idem | done].
    - split.
      + eapply unique_sublist; [apply filter_sublist | done].
      + eapply trimmed_sublist; [apply filter_sublist | done].
    - apply findIndex_same_name_Some in Hi as [Hx _]. split.
      + eapply unique_perm; [apply sort_perm|].
        unfold unique. by rewrite (keys_alter_same _ i arr x Hx).
      + eapply trimmed_perm; [apply sort_perm|]. by apply trimmed_alter.
    - split.
      + eapply unique_perm; [apply sort_perm|].
        by eapply rename_candidates_unique.
      + eapply trimmed_perm; [apply sort_perm|].
        apply rename_candidates_trimmed; [apply trim_normalizeCity | done].
    - split; constructor. }
  split; [exact Hres|]. destruct Hres as [Hu' Ht'].
  destruct (run_op_cases U o w arr w1 E) as [[Hsame Hst] | [Hst _]];
    revert Hu' Ht' Hst; generalize (result (run_op U o) w); intros r Hu' Ht' Hst.
  - assert (Hn : map name arr
                 = map name (result getHistory (after (run_op U o) w))).
    { by rewrite <- Hr, !getHistory_names, Hst. }
    split; [by eapply unique_names | by eapply trimmed_names].
  - destruct (after (run_op U o) w) as [st c k a] eqn:Ew. simpl in Hst. subst st.
    unfold result. rewrite getHistory_store_of. cbn [fst].
    rewrite (retrim_trimmed _ Ht').
    split; [eapply unique_sublist | eapply trimmed_sublist];
      (apply filter_sublist || done).
Qed.

(** ** C2: case-insensitive uniqueness along a sequence of operations *)

Lemma run_ops_cons (U : unicode_tables) o o' os w :
  result (run_ops U (o :: o' :: os)) w
  = result (run_ops U (o' :: os)) (after (run_op U o) w).
Proof.
  unfold result, after. cbn [run_ops]. unfold bind.
  by destruct (run_op U o w).
Qed.

(** C2.  The code does not keep names unique from a legacy array.  The
    two branches of [getHistory] disagree: the record branch trims every
    name it reads (app.js 106), the legacy branch keeps the strings as
    they are stored (app.js 103).  So the legacy array of ["a"] and ["a "]
    loads as two entries with different keys, a list with unique names;
    the first operation, here a [deleteCity] that finds nothing, writes
    them as records; and the second operation reads the records back
    trimmed and returns two entries named ["a"]. *)
Lemma legacy_load_breaks_uniqueness :
  result getHistory legacy_padded
  = [Entry "a" false 1000; Entry "a " false 999]
  /\ unique (result getHistory legacy_padded)
  /\ result (run_ops latin1_tables [Delete "x"; Delete "x"]) legacy_padded
     = [Entry "a" false 1000; Entry "a" false 999]
  /\ ~ unique (result (run_ops latin1_tables [Delete "x"; Delete "x"])
                      legacy_padded).
Proof.
  split_and!.
  - by vm_compute.
  - apply (bool_decide_unpack _). by vm_compute.
  - by vm_compute.
  - intros H. apply (bool_decide_pack _) in H. by vm_compute in H.
Qed.

(** X23.  What does hold along a sequence of operations: from a loaded
    list whose names are unique under case-insensitive comparison and
    carry no white space at either end, the list in hand after any
    sequence of store operations still has no two names that are equal
    under case-insensitive comparison. *)
Theorem uniqueness_after_sequence (U : unicode_tables) (w : world)
    (os : list op) :
  unique (result getHistory w) -> trimmed (result getHistory w) ->
  unique (result (run_ops U os) w).
Proof.
  revert w. induction os as [|o os IH]; intros w Hu Ht; [exact Hu|].
  destruct os as [|o' os].
  - by apply run_op_keeps_names.
  - rewrite run_ops_cons.
    destruct (run_op_keeps_names U o w Hu Ht) as [_ [Hu' Ht']].
    by apply IH.
Qed.

Lemma uniqueness_after_sequence_witness :
  (unique (result getHistory paris_tokyo)
   /\ trimmed (result getHistory paris_tokyo))
  /\ unique (result (run_ops latin1_tables
                      [Upsert " paris "; Toggle "PARIS";
                       Rename "Tokyo" (Some "paris"); Delete "x"])
                    paris_tokyo).
Proof.
  assert (Hu : unique (result getHistory paris_tokyo)).
  { apply (bool_decide_unpack _). by vm_compute. }
  assert (Ht : trimmed (result getHistory paris_tokyo)).
  { repeat constructor. }
  split; [by split|].
  exact (uniqueness_after_sequence latin1_tables paris_tokyo _ Hu Ht).
Defined.

(** ** C4: renaming onto an existing name merges the two entries *)

Lemma delete_alter_same {A} (f : A -> A) j (l : list A) :
  delete j (alter f j l) = delete j l.
Proof.
  revert j. induction l as [|x r IH]; intros [|j]; simpl; try done.
  by rewrite IH.
Qed.

(** Rewriting position [j] and removing position [i]: what is left is the
    rewritten element and the rest of the list. *)
Lemma merge_permutation {A} (f : A -> A) (l : list A) i j a b :
  i <> j -> l !! i = Some a -> l !! j = Some b ->
  exists rest, Permutation l (a :: b :: rest)
               /\ Permutation (delete i (alter f j l)) (f b :: rest).
Proof.
  revert i j. induction l as [|x r IH]; intros i j Hne Hi Hj; [done|].
  destruct i as [|i], j as [|j]; simpl in *; try done.
  - injection Hi as ->. exists (delete j r). split.
    + constructor. by apply delete_Permutation.
    + rewrite <- (delete_alter_same f j r). apply delete_Permutation.
      by rewrite list_lookup_alter_eq, Hj.
  - injection Hj as ->. exists (delete i r). split.
    + rewrite (delete_Permutation r i a Hi) at 1. apply perm_swap.
    + done.
  - destruct (IH i j) as (rest & H1 & H2); [congruence | done | done |].
    exists (x :: rest). split.
    + rewrite H1. rewrite (perm_swap a x). constructor. apply perm_swap.
    + rewrite H2. apply perm_swap.
Qed.

(** In a list with unique names a match is the first match. *)
Lemma unique_findIndex n arr i x :
  unique arr -> arr !! i = Some x -> same_name n x = true ->
  findIndex (same_name n) arr = Some (i, x).
Proof.
  intros Hu Hx Hn. unfold findIndex. apply list_find_Some.
  split_and!; [done | done |].
  intros j y Hy Hlt Hm. apply same_name_key in Hn, Hm.
  rewrite unique_alt in Hu.
  assert (j = i); [|lia].
  apply (Hu j i y x Hy Hx). unfold key in *. congruence.
Qed.

(** C4, as stated, fails on a list that holds a name twice.  A legacy
    array whose names differ by a trailing blank is such a list once it
    has been written and read back: both entries are named ["a"].
    Renaming ["a"] to ["A"] finds the source at index 0 and, distinct from
    it, an entry at index 1 that bears the new name; but the search for
    the new name stops at index 0, the source itself, so nothing is
    merged: the source is renamed in place and two entries remain. *)
Lemma rename_merges_counterexample :
  localStorage legacy_padded_written
  = store_of [Entry "a" false 1000; Entry "a " false 999]
  /\ result getHistory legacy_padded_written
     = [Entry "a" false 1000; Entry "a" false 999]
  /\ same_name "a" (Entry "a" false 1000) = true
  /\ valid_name (cityRegex latin1_tables) (normalizeCity "A") = true
  /\ same_name (normalizeCity "A") (Entry "a" false 999) = true
  /\ result (renameCity "a" normalizeCity (cityRegex latin1_tables) (Some "A"))
            legacy_padded_written
     = [Entry "A" false 1001; Entry "a" false 999].
Proof. split_and!; by vm_compute. Qed.

(** C4, amended.  The source is the first entry that matches [old] and
    the target the first entry that bears the validated normalized new
    name, as [findIndex] finds them.  When the two are different entries,
    [renameCity] replaces them by one: the target with [pinned] the
    disjunction of the two flags and [ts] the current clock reading.  The
    other entries stay, the list is one entry shorter, and the sorted
    result is what is stored.  In particular an unpinned source merged
    into a pinned target leaves a pinned entry.  When the names of the
    loaded list are unique, the merged entry is the only entry of the
    result that bears the new name, and no entry matches [old] any
    more. *)
Theorem rename_merges_into_existing (U : unicode_tables) (w : world)
    (old typed : string) (i j : nat) (src tgt : entry) :
  let arr := result getHistory w in
  let nn := normalizeCity typed in
  let now := now_after_load w in
  let merged := Entry (name tgt) (pinned tgt || pinned src) now in
  let r := result (renameCity old normalizeCity (cityRegex U) (Some typed)) w in
  valid_name (cityRegex U) nn = true ->
  findIndex (same_name old) arr = Some (i, src) ->
  findIndex (same_name nn) arr = Some (j, tgt) ->
  j <> i ->
  (exists rest, Permutation arr (src :: tgt :: rest)
                /\ Permutation r (merged :: rest))
  /\ S (length r) = length arr
  /\ ordered r
  /\ localStorage
       (after (renameCity old normalizeCity (cityRegex U) (Some typed)) w)
     = store_of r
  /\ (unique arr ->
      (forall x, x ∈ r -> same_name nn x = true -> x = merged)
      /\ Forall (fun x => same_name old x = false) r).
Proof.
  cbv zeta. unfold now_after_load. destruct (getHistory w) as [arr w1] eqn:E.
  assert (Hr : result getHistory w = arr) by (unfold result; by rewrite E).
  assert (Ha : after getHistory w = w1) by (unfold after; by rewrite E).
  rewrite !Hr, !Ha. clear Hr Ha.
  set (nn := normalizeCity typed).
  set (merged := Entry (name tgt) (pinned tgt || pinned src)
                       (clock w1 (ticks w1))).
  intros Hv Hi Hj Hne.
  destruct (findIndex_same_name_Some _ _ _ _ Hi) as [Hsrc Hold].
  destruct (findIndex_same_name_Some _ _ _ _ Hj) as [Htgt Hnew].
  unfold result, after.
  rewrite (renameCity_valid_eq old normalizeCity (cityRegex U) typed w arr w1
             i src E Hi Hv).
  cbn [fst snd localStorage]. fold nn.
  unfold rename_candidates. rewrite Hj. unfold merge_target.
  destruct (decide (j = i)) as [->|_]; [done|].
  set (f := fun e => Entry (name e) (pinned e || pinned src)
                           (clock w1 (ticks w1))).
  assert (Hne' : i <> j) by congruence.
  destruct (merge_permutation f arr i j src tgt Hne' Hsrc Htgt)
    as (rest & Harr & Hcand).
  change (f tgt) with merged in Hcand.
  assert (Hres : Permutation (js_sort compare_entries (delete i (alter f j arr)))
                             (merged :: rest)).
  { by rewrite sort_perm. }
  split_and!.
  - by exists rest.
  - rewrite Hres, Harr. done.
  - apply sort_ordered.
  - done.
  - intros Hu.
    assert (Hkeys : NoDup (key src :: key tgt :: map key rest)).
    { unfold unique in Hu. by rewrite Harr in Hu. }
    apply NoDup_cons in Hkeys as [Hks Hkeys].
    apply NoDup_cons in Hkeys as [Hkt Hkeys].
    apply same_name_key in Hold, Hnew. split.
    + intros x Hx Hm. rewrite Hres in Hx. apply same_name_key in Hm.
      apply elem_of_cons in Hx as [-> | Hx]; [done|].
      exfalso. apply Hkt. rewrite Hnew, <- Hm. by apply list_elem_of_fmap_2.
    + rewrite Hres. constructor.
      * apply same_name_false_key. rewrite <- Hold.
        change (key merged) with (key tgt). intros Heq. apply Hks.
        rewrite <- Heq. by left.
      * apply Forall_forall. intros x Hx. apply same_name_false_key.
        rewrite <- Hold. intros Heq. apply Hks. right. rewrite <- Heq.
        by apply list_elem_of_fmap_2.
Qed.

Lemma rename_merges_into_existing_witness :
  (valid_name (cityRegex latin1_tables) (normalizeCity "tijuana") = true
   /\ findIndex (same_name "Tokyo") (result getHistory tokyo_tijuana)
      = Some (0%nat, Entry "Tokyo" true 100)
   /\ findIndex (same_name (normalizeCity "tijuana"))
                (result getHistory tokyo_tijuana)
      = Some (1%nat, Entry "Tijuana" false 50)
   /\ 1%nat <> 0%nat)
  /\ (exists rest,
        Permutation (result getHistory tokyo_tijuana)
                    (Entry "Tokyo" true 100 :: Entry "Tijuana" false 50 :: rest)
        /\ Permutation
             (result (renameCity "Tokyo" normalizeCity (cityRegex latin1_tables)
                                 (Some "tijuana")) tokyo_tijuana)
             (Entry "Tijuana" true 1000 :: rest)).
Proof.
  assert (H1 : valid_name (cityRegex latin1_tables) (normalizeCity "tijuana")
               = true) by (by vm_compute).
  assert (H2 : findIndex (same_name "Tokyo") (result getHistory tokyo_tijuana)
               = Some (0%nat, Entry "Tokyo" true 100)) by (by vm_compute).
  assert (H3 : findIndex (same_name (normalizeCity "tijuana"))
                         (result getHistory tokyo_tijuana)
               = Some (1%nat, Entry "Tijuana" false 50)) by (by vm_compute).
  assert (H4 : 1%nat <> 0%nat) by lia.
  split; [by split_and!|].
  exact (proj1 (rename_merges_into_existing latin1_tables tokyo_tijuana
                  "Tokyo" "tijuana" 0 1 (Entry "Tokyo" true 100)
                  (Entry "Tijuana" false 50) H1 H2 H3 H4)).
Defined.

(** Pin stability under merge, on the lists of the specification: an
    unpinned entry renamed to the name of a pinned one. *)
Example rename_unpinned_onto_pinned :
  result (renameCity "Paris" normalizeCity (cityRegex latin1_tables)
                     (Some "tokyo")) paris_tokyo
  = [Entry "Tokyo" true 1000].
Proof. by vm_compute. Qed.

(** ** C6: what [upsertCity] does to the name it is given *)

(** C6, as stated, fails: [upsertCity] trims its argument and does nothing
    else to it.  The name ["Tijuana,mx"] is stored as it is, though the
    normalizer turns it into ["Tijuana, MX"]; and the lookup does not find
    a stored ["Tijuana, MX"], so a second entry is added. *)
Lemma upsert_stores_normalized_counterexample :
  result (upsertCity "Tijuana,mx") empty_store = [Entry "Tijuana,mx" false 1000]
  /\ localStorage (after (upsertCity "Tijuana,mx") empty_store)
     = store_of [Entry "Tijuana,mx" false 1000]
  /\ normalizeCity "Tijuana,mx" = "Tijuana, MX"%string
  /\ result (upsertCity "Tijuana,mx") tijuana_stored
     = [Entry "Tijuana,mx" false 1000; Entry "Tijuana, MX" false 5].
Proof. split_and!; by vm_compute. Qed.

Lemma elem_of_alter {A} (f : A -> A) i (l : list A) x :
  x ∈ alter f i l -> x ∈ l \/ exists y, l !! i = Some y /\ x = f y.
Proof.
  intros (k & Hk)%list_elem_of_lookup.
  destruct (decide (i = k)) as [<-|Hne].
  - rewrite list_lookup_alter_eq in Hk.
    destruct (l !! i) as [y|]; [|done]. injection Hk as <-. right. eauto.
  - rewrite list_lookup_alter_ne in Hk by done.
    left. by eapply list_elem_of_lookup_2.
Qed.

Lemma upsert_candidates_elem n t arr e :
  e ∈ upsert_candidates n t arr -> e ∈ arr \/ (name e = n /\ ts e = t).
Proof.
  unfold upsert_candidates.
  destruct (findIndex (same_name n) arr) as [[i x]|].
  - intros [H | (y & _ & ->)]%elem_of_alter; [by left | by right].
  - intros [-> | H]%elem_of_cons; [by right | by left].
Qed.

Lemma upsert_candidates_touched n t arr :
  exists e, e ∈ upsert_candidates n t arr /\ name e = n /\ ts e = t.
Proof.
  unfold upsert_candidates.
  destruct (findIndex (same_name n) arr) as [[i x]|] eqn:Hi.
  - apply findIndex_same_name_Some in Hi as [Hx _].
    exists (Entry n (pinned x) t). split; [|done].
    apply list_elem_of_lookup. exists i.
    by rewrite list_lookup_alter_eq, Hx.
  - exists (Entry n false t). split; [by left | done].
Qed.

Lemma existsb_findIndex {A} (p : A -> bool) l :
  existsb p l = match findIndex p l with Some _ => true | None => false end.
Proof.
  destruct (findIndex p l) as [[i x]|] eqn:H.
  - unfold findIndex in H. apply list_find_Some in H as (Hx & Hp & _).
    apply existsb_exists. exists x. split; [|done].
    apply list_elem_of_In. by eapply list_elem_of_lookup_2.
  - apply findIndex_None in H. apply not_true_is_false. intros He.
    apply existsb_exists in He as (x & Hx & Hp).
    rewrite Forall_forall in H. apply list_elem_of_In in Hx.
    specialize (H x Hx). congruence.
Qed.

Lemma upsert_candidates_length n t arr :
  length (upsert_candidates n t arr)
  = (length arr + if existsb (same_name n) arr then 0 else 1)%nat.
Proof.
  rewrite existsb_findIndex. unfold upsert_candidates.
  destruct (findIndex (same_name n) arr) as [[i x]|].
  - rewrite length_alter. lia.
  - simpl. lia.
Qed.

(** C6, amended.  [upsertCity] trims the name at both ends, and that is
    all: every entry of the result is an entry of the loaded list or is
    named exactly [nm.trim()] and stamped with the current clock reading;
    such an entry is in the result whenever fewer than eight entries were
    loaded; the lookup is the case-insensitive comparison with
    [nm.trim()]: of [n] loaded entries the result keeps [min 8 n] when
    one of them matches and [min 8 (n + 1)] when none does; and the
    result is what is stored. *)
Theorem upsert_stores_trimmed_name (w : world) (nm : string) :
  let arr := result getHistory w in
  let now := now_after_load w in
  let r := result (upsertCity nm) w in
  (forall e, e ∈ r -> e ∈ arr \/ (name e = Str.trim nm /\ ts e = now))
  /\ ((length arr < 8)%nat ->
      exists e, e ∈ r /\ name e = Str.trim nm /\ ts e = now)
  /\ length r
     = (8 `min` (length arr
                 + if existsb (same_name (Str.trim nm)) arr then 0 else 1))%nat
  /\ localStorage (after (upsertCity nm) w) = store_of r.
Proof.
  cbv zeta. unfold now_after_load. destruct (getHistory w) as [arr w1] eqn:E.
  assert (Hr : result getHistory w = arr) by (unfold result; by rewrite E).
  assert (Ha : after getHistory w = w1) by (unfold after; by rewrite E).
  rewrite !Hr, !Ha. clear Hr Ha.
  unfold result, after. rewrite (upsertCity_eq _ _ _ _ E).
  cbn [fst snd localStorage].
  set (n := Str.trim nm). set (t := clock w1 (ticks w1)).
  split_and!.
  - intros e He. apply (upsert_candidates_elem n t).
    rewrite <- (sort_perm (upsert_candidates n t arr)).
    apply elem_of_take in He as (k & Hk & _). by eapply list_elem_of_lookup_2.
  - intros Hlen. destruct (upsert_candidates_touched n t arr) as (e & He & Hn).
    exists e. split; [|done]. rewrite take_ge.
    + by rewrite sort_perm.
    + rewrite sort_length, upsert_candidates_length.
      destruct (existsb (same_name n) arr); lia.
  - by rewrite length_take, sort_length, upsert_candidates_length.
  - done.
Qed.

Lemma upsert_stores_trimmed_name_witness :
  (length (result getHistory paris_tokyo) < 8)%nat
  /\ exists e, e ∈ result (upsertCity "  Tijuana,mx ") paris_tokyo
               /\ name e = "Tijuana,mx"%string
               /\ ts e = 1000.
Proof.
  split; [vm_compute; lia|].
  apply (upsert_stores_trimmed_name paris_tokyo "  Tijuana,mx ").
  vm_compute. lia.
Defined.

(** ** C3: capacity *)

Lemma named_sublist l k : l `sublist_of` k -> named k -> named l.
Proof.
  unfold named. induction 1 as [|x l k _ IH|x l k _ IH]; [done | |].
  - intros [Hx Hk]%Forall_cons. constructor; auto.
  - intros [_ Hk]%Forall_cons. auto.
Qed.

Lemma named_perm l k : Permutation l k -> named k -> named l.
Proof. unfold named. intros H. by rewrite H. Qed.

Lemma upsert_candidates_named n t arr :
  Str.truthy n = true -> named arr -> named (upsert_candidates n t arr).
Proof.
  intros Hn Ha. unfold upsert_candidates.
  destruct (findIndex (same_name n) arr) as [[i x]|].
  - unfold named in *. rewrite Forall_lookup in *. intros j y Hy.
    destruct (decide (i = j)) as [<-|Hne].
    + rewrite list_lookup_alter_eq in Hy.
      destruct (arr !! i); [|done]. by injection Hy as <-.
    + rewrite list_lookup_alter_ne in Hy by done. by eapply Ha.
  - by constructor.
Qed.

(** Whatever records are stored, the list loaded from them has trimmed,
    non-empty names; and a list with such names is read back as it was
    written. *)
Lemma reload_trimmed_named r :
  trimmed (List.filter (fun e => Str.truthy (name e)) (map retrim r))
  /\ named (List.filter (fun e => Str.truthy (name e)) (map retrim r)).
Proof.
  split.
  - eapply trimmed_sublist; [apply filter_sublist|].
    unfold trimmed. apply Forall_fmap, Forall_forall. intros e _. simpl.
    apply trim_idem.
  - unfold named. apply Forall_forall. intros e He.
    apply list_elem_of_In, filter_In in He. tauto.
Qed.

Lemma reload_fix r :
  trimmed r -> named r ->
  List.filter (fun e => Str.truthy (name e)) (map retrim r) = r.
Proof. intros Ht Hn. rewrite retrim_trimmed by done. by apply filter_keeps_all. Qed.

Lemma upsert_candidates_keys n t arr :
  map key arr ⊆ map key (upsert_candidates n t arr)
  /\ Str.toLowerCase n ∈ map key (upsert_candidates n t arr).
Proof.
  unfold upsert_candidates.
  destruct (findIndex (same_name n) arr) as [[i x]|] eqn:Hi.
  - apply findIndex_same_name_Some in Hi as [Hx Hn].
    apply same_name_key in Hn.
    rewrite (keys_alter_same _ i arr x Hx) by (by rewrite Hn).
    split; [done|]. rewrite <- Hn. apply list_elem_of_fmap_2.
    by eapply list_elem_of_lookup_2.
  - simpl. split; [|by left]. intros k Hk. by right.
Qed.

(** One upsert: its result, what it stores, and what the next operation
    will load. *)
Lemma upsertCity_step nm w :
  let t := now_after_load w in
    result (upsertCity nm) w
    = take 8 (js_sort compare_entries
                (upsert_candidates (Str.trim nm) t (result getHistory w)))
    /\ localStorage (after (upsertCity nm) w)
       = store_of (result (upsertCity nm) w)
    /\ result getHistory (after (upsertCity nm) w)
       = List.filter (fun e => Str.truthy (name e))
                     (map retrim (result (upsertCity nm) w)).
Proof.
  cbv zeta. unfold now_after_load.
  destruct (getHistory w) as [arr w1] eqn:E.
  assert (Hr : result getHistory w = arr) by (unfold result; by rewrite E).
  assert (Ha : after getHistory w = w1) by (unfold after; by rewrite E).
  rewrite Hr, Ha.
  unfold result, after. rewrite (upsertCity_eq _ _ _ _ E). cbn [fst snd].
  by rewrite getHistory_store_of.
Qed.

Lemma upsert_length_le nm w : (length (result (upsertCity nm) w) <= 8)%nat.
Proof.
  destruct (upsertCity_step nm w) as (-> & _). rewrite length_take. lia.
Qed.

Lemma run_ops_cons_after (U : unicode_tables) o o' os w :
  after (run_ops U (o :: o' :: os)) w
  = after (run_ops U (o' :: os)) (after (run_op U o) w).
Proof.
  unfold result, after. cbn [run_ops]. unfold bind.
  by destruct (run_op U o w).
Qed.

(** A run of upserts on a loaded list with trimmed, non-empty names: the
    list never gets longer than eight, never shrinks below eight once it
    got there, and as long as it is shorter every key seen so far is in
    it. *)
Lemma upserts_fill (U : unicode_tables) names w :
  names <> [] -> Forall nonblank names ->
  trimmed (result getHistory w) -> named (result getHistory w) ->
  let F := result (run_ops U (map Upsert names)) w in
  (length F <= 8)%nat
  /\ localStorage (after (run_ops U (map Upsert names)) w) = store_of F
  /\ ((8 <= length (result getHistory w))%nat -> (8 <= length F)%nat)
  /\ ((8 <= length F)%nat
      \/ (map key (result getHistory w) ⊆ map key F
          /\ map upsert_key names ⊆ map key F)).
Proof.
  revert w. induction names as [|n names IH]; intros w Hne Hnb Ht Hn; [done|].
  apply Forall_cons in Hnb as [Hn1 Hnb]. cbv zeta.
  destruct (upsertCity_step n w) as (Hres & Hst & Hload).
  set (t := now_after_load w) in *.
  set (G := result getHistory w) in *.
  set (cand := upsert_candidates (Str.trim n) t G) in *.
  set (r1 := result (upsertCity n) w) in *.
  assert (Hr1 : trimmed r1 /\ named r1).
  { rewrite Hres. split.
    - eapply trimmed_sublist; [apply sublist_take|].
      eapply trimmed_perm; [apply sort_perm|].
      apply upsert_candidates_trimmed; [apply trim_idem | done].
    - eapply named_sublist; [apply sublist_take|].
      eapply named_perm; [apply sort_perm|].
      by apply upsert_candidates_named. }
  destruct Hr1 as [Ht1 Hn1'].
  assert (Hlen1 : length r1 = (8 `min` length cand)%nat).
  { by rewrite Hres, length_take, sort_length. }
  assert (Hcand : (length G <= length cand)%nat).
  { unfold cand. rewrite upsert_candidates_length. lia. }
  assert (Hkeys1 : (8 <= length r1)%nat
                   \/ (map key G ⊆ map key r1 /\ upsert_key n ∈ map key r1)).
  { destruct (decide (8 < length cand)%nat) as [Hbig|Hsmall]; [left; lia|].
    right. rewrite Hres, take_ge by (rewrite sort_length; lia).
    destruct (upsert_candidates_keys (Str.trim n) t G) as [H1 H2].
    fold cand in H1, H2. split.
    - intros k Hk. rewrite (sort_perm cand). by apply H1.
    - rewrite (sort_perm cand). exact H2. }
  destruct names as [|n' names].
  - simpl. fold r1. split_and!; [lia | done | lia |].
    destruct Hkeys1 as [H|[H1 H2]]; [by left|]. right. split; [done|].
    intros k [-> | Hk]%elem_of_cons; [done | by apply elem_of_nil in Hk].
  - change (map Upsert (n :: n' :: names))
      with (Upsert n :: Upsert n' :: map Upsert names).
    rewrite run_ops_cons, run_ops_cons_after.
    change (run_op U (Upsert n)) with (upsertCity n).
    set (w' := after (upsertCity n) w) in *.
    assert (Hload' : result getHistory w' = r1).
    { rewrite Hload. by apply reload_fix. }
    specialize (IH w'). rewrite Hload' in IH.
    destruct (IH ltac:(done) Hnb Ht1 Hn1') as (HF & HstF & Hmono & Hk).
    change (Upsert n' :: map Upsert names) with (map Upsert (n' :: names)).
    set (F := result (run_ops U (map Upsert (n' :: names))) w') in *.
    split_and!; [done | done | intros; apply Hmono; lia |].
    destruct Hk as [Hk | [Hk1 Hk2]]; [by left|].
    destruct Hkeys1 as [H8 | [H1 H2]]; [left; by apply Hmono|].
    right. split.
    + intros k Hk. by apply Hk1, H1.
    + intros k [-> | Hk]%elem_of_cons; [by apply Hk1 | by apply Hk2].
Qed.

(** C3, as stated, fails: nine distinct normalized names that differ in
    case only pairwise collapse, by the case-insensitive lookup, to five
    entries. *)
Lemma capacity_exactly_eight_counterexample :
  NoDup (map normalizeCity case_variants)
  /\ length (map normalizeCity case_variants) = 9%nat
  /\ length (result (run_ops latin1_tables (map Upsert case_variants)) empty_store) = 5%nat.
Proof.
  split_and!; [|by vm_compute..].
  apply (bool_decide_unpack _). by vm_compute.
Qed.

(** The same happens with names that are blank: an entry with the empty
    name is stored, counts towards the eight, and is dropped when the
    store is read again. *)
Example capacity_blank_name :
  length (result (run_ops latin1_tables (map Upsert
            ["a"; "b"; "c"; "d"; "e"; "f"; "g"; "h"; " "; "a"; " "; "a"]%string))
            empty_store) = 7%nat.
Proof. by vm_compute. Qed.

(** C3, amended.  Every [upsertCity] result has at most eight entries and
    is the front of the sorted candidates: together with the entries cut
    off it is a sorted arrangement of the loaded list with the upserted
    entry refreshed or added, so every retained entry ranks before every
    dropped one, and entries are dropped only from a full result.  After
    any sequence of [upsertCity] calls whose names are not blank and have
    more than eight different keys (trimmed, compared without case) the
    stored list has exactly eight entries. *)
Theorem upsert_capacity (U : unicode_tables) (w : world) :
  (forall nm,
     (length (result (upsertCity nm) w) <= 8)%nat
     /\ exists dropped,
          Permutation (result (upsertCity nm) w ++ dropped)
                      (upsert_candidates (Str.trim nm) (now_after_load w)
                                         (result getHistory w))
          /\ ordered (result (upsertCity nm) w ++ dropped)
          /\ (dropped = [] \/ length (result (upsertCity nm) w) = 8%nat))
  /\ (forall names,
        Forall nonblank names ->
        (8 < length (remove_dups (map upsert_key names)))%nat ->
        length (result (run_ops U (map Upsert names)) w) = 8%nat
        /\ localStorage (after (run_ops U (map Upsert names)) w)
           = store_of (result (run_ops U (map Upsert names)) w)).
Proof.
  split.
  - intros nm. split; [apply upsert_length_le|].
    destruct (upsertCity_step nm w) as (Hres & _).
    set (s := js_sort compare_entries
                (upsert_candidates (Str.trim nm) (now_after_load w)
                                   (result getHistory w))) in *.
    exists (drop 8 s). rewrite Hres, take_drop. split_and!.
    + apply sort_perm.
    + apply sort_ordered.
    + destruct (decide (length s <= 8)%nat) as [Hle|Hgt].
      * left. by apply drop_ge.
      * right. rewrite length_take. lia.
  - intros names Hnb Hcount.
    destruct names as [|n names]; [simpl in Hcount; lia|].
    apply Forall_cons in Hnb as [_ Hnb].
    assert (Hcount' : (8 <= length (remove_dups (map upsert_key names)))%nat).
    { simpl in Hcount. destruct (decide_rel _ _ _) in Hcount; simpl in Hcount; lia. }
    destruct names as [|n' names]; [simpl in Hcount'; lia|].
    change (map Upsert (n :: n' :: names))
      with (Upsert n :: map Upsert (n' :: names)).
    cbn [map]. rewrite run_ops_cons, run_ops_cons_after.
    change (Upsert n' :: map Upsert names) with (map Upsert (n' :: names)).
    change (run_op U (Upsert n)) with (upsertCity n).
    destruct (upsertCity_step n w) as (_ & _ & Hload).
    set (w' := after (upsertCity n) w) in *.
    destruct (reload_trimmed_named (result (upsertCity n) w)) as [Ht Hn].
    rewrite <- Hload in Ht, Hn.
    destruct (upserts_fill U (n' :: names) w' ltac:(done) Hnb Ht Hn)
      as (Hle & Hst & _ & Hk).
    split; [|exact Hst].
    destruct Hk as [H8 | [_ Hk]]; [lia|].
    assert (Hsub : remove_dups (map upsert_key (n' :: names))
                   ⊆+ map key (result (run_ops U (map Upsert (n' :: names))) w')).
    { apply NoDup_submseteq; [apply NoDup_remove_dups|].
      intros k Hkk. apply Hk. by apply elem_of_remove_dups. }
    apply submseteq_length in Hsub. rewrite length_fmap in Hsub. lia.
Qed.

Lemma upsert_capacity_witness :
  (Forall nonblank nine_names
   /\ (8 < length (remove_dups (map upsert_key nine_names)))%nat)
  /\ length (result (run_ops latin1_tables (map Upsert nine_names)) paris_tokyo) = 8%nat.
Proof.
  assert (Hnb : Forall nonblank nine_names) by (repeat constructor).
  assert (Hc : (8 < length (remove_dups (map upsert_key nine_names)))%nat)
    by (vm_compute; lia).
  split; [by split|].
  exact (proj1 (proj2 (upsert_capacity latin1_tables paris_tokyo) nine_names Hnb Hc)).
Defined.

(** ** The scenarios of the specification, run on the model *)

Example scenario_upsert_twice :
  result (run_ops latin1_tables [Upsert "tijuana"; Upsert "Tijuana"]) empty_store
  = [Entry "Tijuana" false 1001].
Proof. by vm_compute. Qed.

Example scenario_toggle_pin :
  result (togglePin "Paris") paris_then_tokyo
  = [Entry "Paris" true 1000; Entry "Tokyo" true 50].
Proof. by vm_compute. Qed.

Example scenario_rename_merge :
  result (renameCity "Tokyo" normalizeCity (cityRegex latin1_tables)
                     (Some "tijuana"))
         tokyo_tijuana
  = [Entry "Tijuana" true 1000].
Proof. by vm_compute. Qed.

Example scenario_delete_missing :
  result (deleteCity "Nonexistent") paris_then_tokyo
  = result getHistory paris_then_tokyo.
Proof. by vm_compute. Qed.

Example scenario_legacy_load :
  result getHistory legacy_two
  = [Entry "Tijuana" false 1000; Entry "Paris" false 999]
  /\ localStorage (after getHistory legacy_two) = localStorage legacy_two.
Proof. by vm_compute. Qed.

(** The three rejections of [renameCity] raise three different alerts. *)
Example scenario_rename_alerts :
  alerts (after (renameCity "Paris" normalizeCity (cityRegex latin1_tables)
                            (Some "  "))
                paris_tokyo) = [AlertEmpty]
  /\ alerts (after (renameCity "Paris" normalizeCity (cityRegex latin1_tables)
                               (Some "a;b"))
                   paris_tokyo) = [AlertBadFormat]
  /\ alerts (after (renameCity "Paris" normalizeCity (cityRegex latin1_tables)
                      (Some "aaaaaaaaaaaaaaaaaaaaaaaaaaaaaaaaaaaaaaaaaaaaaaaaaaaaaaaaaaaaaaaaaaaaaaaaaaaaaaaaaaaaaaaaaaaaaaaaaa"))
                   paris_tokyo) = [AlertTooLong].
Proof. by vm_compute. Qed.

Example normalizeCity_samples :
  normalizeCity "  tijuana ,   mx " = "tijuana , MX"%string
  /\ normalizeCity "San   Diego,us" = "San Diego, US"%string
  /\ cityRegex latin1_tables "Tijuana, MX" = true
  /\ cityRegex latin1_tables "Tijuana; MX" = false.
Proof. by vm_compute. Qed.

(** Code units above U+00FF.  An ideographic space (U+3000) alone
    normalizes to the empty string; a narrow no-break space (U+202F), an
    Ogham space mark (U+1680), an em space (U+2003) and a byte order mark
    (U+FEFF) are white space like any other; a name written with a
    combining acute accent passes the pattern when the tables know the
    accent as a mark; and a surrogate pair is read as one code point. *)
Example wide_samples :
  normalize_units [12288]%N = []
  /\ normalize_units [8239; 97; 5760; 8195; 98; 65279]%N = [97; 32; 98]%N
  /\ cityRegex_units accent_tables jose_decomposed = true
  /\ cityRegex_units latin1_tables jose_decomposed = false
  /\ Str.code_points [55357; 56832]%N = [128512]%N
  /\ cityRegex_units latin1_tables [55357; 56832]%N = false.
Proof. by vm_compute. Qed.

(** * Further properties of the code *)

(** ** Escaping names for the page (app.js 92-94) *)

Lemma of_chars_inj s1 s2 : Str.chars s1 = Str.chars s2 -> s1 = s2.
Proof.
  intros H. apply (f_equal Str.of_chars) in H.
  unfold Str.of_chars, Str.chars in H.
  by rewrite !string_of_list_ascii_of_string in H.
Qed.

Lemma code_eqb_true c n :
  (Char.code c =? n)%N = true -> c = ascii_of_N n.
Proof.
  intros H. apply N.eqb_eq in H. unfold Char.code in H.
  by rewrite <- H, ascii_N_embedding.
Qed.

Lemma esc_char_cases c :
  (is_markup c = false /\ (Char.code c =? 38)%N = false /\ esc_char c = [c])
  \/ ((is_markup c = true \/ (Char.code c =? 38)%N = true)
      /\ forallb (fun d => negb (is_markup d)) (esc_char c) = true
      /\ (3 <= length (esc_char c))%nat
      /\ forall X, amp_ok (esc_char c ++ X) = amp_ok X
                   /\ unesc_chars 0 (esc_char c ++ X) = c :: unesc_chars 0 X).
Proof.
  unfold esc_char, is_markup.
  destruct (Char.code c =? 38)%N eqn:E38.
  { apply code_eqb_true in E38. subst c. right.
    split_and!; [by right | reflexivity | simpl; lia |]. by intros X. }
  destruct (Char.code c =? 60)%N eqn:E60.
  { apply code_eqb_true in E60. subst c. right.
    split_and!; [by left | reflexivity | simpl; lia |]. by intros X. }
  destruct (Char.code c =? 62)%N eqn:E62.
  { apply code_eqb_true in E62. subst c. right.
    split_and!; [by left | reflexivity | simpl; lia |]. by intros X. }
  destruct (Char.code c =? 34)%N eqn:E34.
  { apply code_eqb_true in E34. subst c. right.
    split_and!; [by left | reflexivity | simpl; lia |]. by intros X. }
  destruct (Char.code c =? 39)%N eqn:E39.
  { apply code_eqb_true in E39. subst c. right.
    split_and!; [by left | reflexivity | simpl; lia |]. by intros X. }
  left. by split_and!.
Qed.

Lemma esc_chars_safe l :
  forallb (fun d => negb (is_markup d)) (flat_map esc_char l) = true.
Proof.
  induction l as [|c r IH]; [done|]. simpl. rewrite forallb_app, IH, andb_true_r.
  destruct (esc_char_cases c) as [(Hm & _ & ->) | (_ & H & _)]; [|exact H].
  simpl. by rewrite Hm.
Qed.

Lemma esc_chars_amp_ok l : amp_ok (flat_map esc_char l) = true.
Proof.
  induction l as [|c r IH]; [done|]. simpl.
  destruct (esc_char_cases c) as [(_ & Ha & ->) | (_ & _ & _ & H)].
  - simpl. by rewrite Ha, IH.
  - by rewrite (proj1 (H _)).
Qed.

Lemma unesc_esc_chars l : unesc_chars 0 (flat_map esc_char l) = l.
Proof.
  induction l as [|c r IH]; [done|]. simpl.
  destruct (esc_char_cases c) as [(_ & Ha & ->) | (_ & _ & _ & H)].
  - simpl. by rewrite Ha, IH.
  - by rewrite (proj2 (H _)), IH.
Qed.

(** X1.  The output of [esc] holds no angle bracket, no double quote and
    no apostrophe, and each of its ampersands starts one of the five
    entities: an escaped name cannot open a tag or close an attribute
    value. *)
Theorem esc_output_safe (s : string) :
  Forall (fun c => is_markup c = false) (Str.chars (esc s))
  /\ amp_ok (Str.chars (esc s)) = true.
Proof.
  unfold esc. rewrite chars_of_chars. split; [|apply esc_chars_amp_ok].
  apply Forall_forall. intros c Hc.
  pose proof (esc_chars_safe (Str.chars s)) as H.
  rewrite forallb_forall in H. apply list_elem_of_In in Hc.
  specialize (H c Hc). by apply negb_true_iff in H.
Qed.

(** X2.  [esc] loses nothing: reading the five entities back gives the
    string that was escaped, so two different names never get the same
    escaped text. *)
Theorem esc_injective (s1 s2 : string) :
  (Str.of_chars (unesc_chars 0 (Str.chars (esc s1))) = s1)
  /\ (esc s1 = esc s2 -> s1 = s2).
Proof.
  assert (H : forall s, unesc_chars 0 (Str.chars (esc s)) = Str.chars s).
  { intros s. unfold esc. by rewrite chars_of_chars, unesc_esc_chars. }
  split.
  - rewrite H. apply string_of_list_ascii_of_string.
  - intros Heq. apply of_chars_inj. rewrite <- (H s1), <- (H s2). by rewrite Heq.
Qed.

Lemma esc_injective_witness :
  esc "a<b" = esc "a<b" /\ "a<b"%string = "a<b"%string.
Proof.
  split; [reflexivity|].
  exact (proj2 (esc_injective "a<b" "a<b") eq_refl).
Defined.

Lemma esc_chars_length l : (length l <= length (flat_map esc_char l))%nat.
Proof.
  induction l as [|c r IH]; [done|]. simpl. rewrite length_app.
  destruct (esc_char_cases c) as [(_ & _ & ->) | (_ & _ & H & _)]; simpl; lia.
Qed.

(** X3.  [esc] returns a string unchanged exactly when it holds none of
    the five characters of the pattern. *)
Theorem esc_identity_iff (s : string) :
  esc s = s
  <-> Forall (fun c => is_markup c = false /\ (Char.code c =? 38)%N = false)
             (Str.chars s).
Proof.
  unfold esc. split.
  - intros H. apply (f_equal Str.chars) in H. rewrite chars_of_chars in H.
    revert H. generalize (Str.chars s). intros l.
    induction l as [|c r IH]; intros H; [done|]. simpl in H.
    destruct (esc_char_cases c) as [(Hm & Ha & Hc) | (_ & _ & Hlen & _)].
    + rewrite Hc in H. simpl in H. injection H as H. constructor; auto.
    + exfalso. pose proof (esc_chars_length r) as Hr.
      apply (f_equal (@length _)) in H. rewrite length_app in H. simpl in H.
      lia.
  - intros H. apply of_chars_inj. rewrite chars_of_chars.
    induction H as [|c r [Hm Ha] _ IH]; [done|]. simpl. rewrite IH.
    destruct (esc_char_cases c) as [(_ & _ & ->) | ([Hs | Hs] & _)];
      [done | congruence | congruence].
Qed.


(** ** The shape of normalized names (app.js 228-233) *)

Lemma tidy_spaces_plain b l :
  tidy b l = true ->
  Forall (fun c => Char.is_space c = false \/ c = Char.space) l.
Proof.
  revert b. induction l as [|c r IH]; intros b H; [done|]. simpl in H.
  destruct (Char.is_space c) eqn:E.
  - apply andb_true_iff in H as [H Hr]. apply andb_true_iff in H as [_ Hc].
    apply N.eqb_eq in Hc. constructor; [by right | by eapply IH].
  - constructor; [by left | by eapply IH].
Qed.

(** X4.  Each stage of the normalizer leaves a normalized string alone,
    whatever code units the input had: the result has no white space at
    either end, its white space is single plain spaces (U+0020), and a
    trailing country code is already in the form the replacement gives
    it. *)
Theorem normalizeCity_output_tidy (l : list N) :
  let v := normalize_units l in
  Str.trim_units v = v
  /\ collapse_ws false v = v
  /\ replace_cc v = v
  /\ Forall (fun c => Char.is_space c = false \/ c = Char.space) v.
Proof.
  cbv zeta. pose proof (normalize_units_clean l) as Hc. split_and!.
  - by apply clean_trim.
  - by apply clean_collapse.
  - unfold normalize_units. apply replace_cc_idem.
  - destruct Hc as [-> | Hc]; [done | by eapply tidy_spaces_plain].
Qed.

Lemma drop_spaces_nil l :
  Str.drop_spaces l = [] <-> Forall (fun c => Char.is_space c = true) l.
Proof.
  induction l as [|c r IH]; simpl; [done|].
  destruct (Char.is_space c) eqn:E.
  - rewrite IH. split; [by constructor | by intros [_ ?]%Forall_cons].
  - split; [done | intros [? _]%Forall_cons; congruence].
Qed.

Lemma trim_units_nil l :
  Str.trim_units l = [] <-> Forall (fun c => Char.is_space c = true) l.
Proof.
  rewrite <- drop_spaces_nil. unfold Str.trim_units. split.
  - intros H. apply (f_equal (@rev _)) in H. rewrite rev_involutive in H.
    simpl in H. apply drop_spaces_nil in H.
    pose proof (drop_spaces_head_ok l) as Hh.
    destruct (Str.drop_spaces l) as [|c r]; [done|]. simpl in Hh.
    rewrite Forall_forall in H. specialize (H c).
    rewrite H in Hh; [done|]. apply list_elem_of_In, in_rev.
    rewrite rev_involutive. by left.
  - by intros ->.
Qed.

Lemma collapse_ws_nil l : collapse_ws false l = [] -> l = [].
Proof. destruct l as [|c r]; [done|]. simpl. by destruct (Char.is_space c). Qed.

Lemma replace_cc_nil l : replace_cc l = [] -> l = [].
Proof.
  destruct l as [|c r]; [done|]. simpl.
  destruct (c =? Char.comma)%N; [|done].
  by destruct (cc_tail r) as [[x y]|].
Qed.

Lemma normalize_units_nil l :
  normalize_units l = [] <-> Forall (fun c => Char.is_space c = true) l.
Proof.
  rewrite <- trim_units_nil. unfold normalize_units. split.
  - intros H. by apply replace_cc_nil, collapse_ws_nil in H.
  - by intros ->.
Qed.

(** X5.  The normalized string is empty exactly when the input consists
    of white space only (the empty input included), for any code units
    and the whole white-space table; for a name of the store this is when
    [validateCityField] and [renameCity] find it falsy. *)
Theorem normalizeCity_empty_iff :
  (forall l : list N,
     normalize_units l = [] <-> Forall (fun c => Char.is_space c = true) l)
  /\ (forall s : string,
        Str.truthy (normalizeCity s) = false
        <-> Forall (fun c => Char.is_space c = true) (Str.units s)).
Proof.
  split; [apply normalize_units_nil|]. intros s.
  by rewrite truthy_false_units, units_normalizeCity, normalize_units_nil.
Qed.

(** ** The city pattern (app.js 226) *)

Lemma letter_in_class U c :
  ascii_letters_in U -> Char.is_ascii_letter c = true ->
  Char.in_city_class U c = true.
Proof. intros HU H. unfold Char.in_city_class. by rewrite (HU c H). Qed.

Lemma space_in_class U c :
  Char.is_space c = true -> Char.in_city_class U c = true.
Proof.
  intros H. unfold Char.in_city_class. rewrite H.
  by rewrite !orb_true_r.
Qed.

Lemma comma_in_class U : Char.in_city_class U Char.comma = true.
Proof.
  unfold Char.in_city_class.
  change (Char.comma =? 44)%N with true. by rewrite !orb_true_r.
Qed.

Lemma cc_group_in_class U l :
  ascii_letters_in U ->
  cc_group l = true -> forallb (Char.in_city_class U) l = true.
Proof.
  intros HU. destruct l as [|c [|x [|y [|z [|u t]]]]]; simpl; try done.
  - intros H. apply andb_true_iff in H as [H Hy].
    apply andb_true_iff in H as [Hc Hx]. apply N.eqb_eq in Hc. subst c.
    by rewrite comma_in_class, (letter_in_class _ _ HU Hx),
      (letter_in_class _ _ HU Hy).
  - intros H. apply andb_true_iff in H as [H Hz].
    apply andb_true_iff in H as [H Hy]. apply andb_true_iff in H as [Hc Hx].
    apply N.eqb_eq in Hc. subst c.
    by rewrite comma_in_class, (space_in_class _ _ Hx),
      (letter_in_class _ _ HU Hy), (letter_in_class _ _ HU Hz).
Qed.

Lemma code_points_nil l : Str.code_points l = [] <-> l = [].
Proof.
  split; [|by intros ->]. destruct l as [|h [|lo r]]; [done | done |].
  cbn [Str.code_points].
  by destruct (Char.is_high_surrogate h && Char.is_low_surrogate lo).
Qed.

(** X6.  Given that the engine's tables class the letters A-Z and a-z
    under [\p{L}], the pattern asks of a string of at most 80 code points
    only that it is not empty and that every code point is a letter, a
    mark, a digit, white space, a comma, an apostrophe, a period or a
    hyphen: the optional country-code group accepts nothing more.  The
    code points are those the [u] flag reads, a surrogate pair being
    one. *)
Theorem cityRegex_upto_80 (U : unicode_tables) (l : list N) :
  ascii_letters_in U ->
  (length (Str.code_points l) <= 80)%nat ->
  (cityRegex_units U l = true
   <-> l <> []
       /\ forallb (Char.in_city_class U) (Str.code_points l) = true).
Proof.
  intros HU. unfold cityRegex_units. cbv zeta.
  rewrite <- (code_points_nil l).
  generalize (Str.code_points l). clear l. intros l Hlen.
  rewrite existsb_exists. split.
  - intros (k & Hk & H). apply in_seq in Hk.
    apply andb_true_iff in H as [H Hg]. apply andb_true_iff in H as [Hle Hc].
    apply Nat.leb_le in Hle. split.
    + intros ->. simpl in Hle. lia.
    + rewrite <- (take_drop k l), forallb_app, Hc. simpl.
      by apply cc_group_in_class.
  - intros [Hne Hc]. exists (List.length l). split.
    + apply in_seq. destruct l; [done|]. simpl in *. lia.
    + rewrite Nat.leb_refl, take_ge, drop_ge, Hc by lia. done.
Qed.

Lemma cityRegex_upto_80_witness :
  ascii_letters_in accent_tables
  /\ (length (Str.code_points jose_decomposed) <= 80)%nat
  /\ (cityRegex_units accent_tables jose_decomposed = true
      <-> jose_decomposed <> []
          /\ forallb (Char.in_city_class accent_tables)
                     (Str.code_points jose_decomposed) = true).
Proof.
  assert (HU : ascii_letters_in accent_tables).
  { intros c H. simpl. unfold latin1_letter. by rewrite H. }
  assert (H : (length (Str.code_points jose_decomposed) <= 80)%nat)
    by (vm_compute; lia).
  split; [exact HU|]. split; [exact H|].
  exact (cityRegex_upto_80 accent_tables jose_decomposed HU H).
Defined.


(** ** The city field and the request (app.js 235-262, 456-464) *)

Lemma city_message_valid (U : unicode_tables) v :
  city_message U v = None <-> valid_name (cityRegex U) v = true.
Proof.
  unfold city_message, valid_name.
  destruct (Str.truthy v); simpl; [|done].
  destruct (80 <? Str.length v); simpl; [done|].
  by destruct (cityRegex U v).
Qed.

(** X7.  [validateCityField] leaves the normalized text in the field and
    answers [true] exactly when that text is not empty, has at most 80
    characters and matches the pattern; the [invalid] class, the
    [aria-invalid] attribute and the error line are set on failure and
    cleared on success; the selects are not touched; and validating once
    more changes neither the answer nor the page. *)
Theorem validateCityField_spec (U : unicode_tables) (f : form) :
  let ok := fst (validateCityField U f) in
  let f' := snd (validateCityField U f) in
  city_value f' = normalizeCity (city_value f)
  /\ (ok = true <-> valid_name (cityRegex U) (normalizeCity (city_value f)) = true)
  /\ city_invalid f' = negb ok
  /\ city_aria_invalid f' = negb ok
  /\ error_shown f' = negb ok
  /\ (error_text f' = None <-> ok = true)
  /\ units_value f' = units_value f
  /\ lang_value f' = lang_value f
  /\ validateCityField U f' = (ok, f').
Proof.
  cbv zeta. unfold validateCityField.
  pose proof (city_message_valid U (normalizeCity (city_value f))) as Hv.
  destruct (city_message U (normalizeCity (city_value f))) as [msg|] eqn:E;
    cbn [fst snd city_value city_invalid city_aria_invalid error_shown
         error_text units_value lang_value negb].
  - split_and!; try done.
    + split; [done|]. intros H. apply Hv in H. done.
    + by rewrite normalizeCity_fix, E.
  - split_and!; try done.
    + split; [intros _; by apply Hv | done].
    + by rewrite normalizeCity_fix, E.
Qed.

Lemma sanitizeSelects_allowed f :
  allowedUnits (units_value (sanitizeSelects f)) = true
  /\ allowedLangs (lang_value (sanitizeSelects f)) = true
  /\ city_value (sanitizeSelects f) = city_value f.
Proof.
  unfold sanitizeSelects. simpl.
  destruct (allowedUnits (units_value f)) eqn:Eu,
           (allowedLangs (lang_value f)) eqn:El; by split_and!.
Qed.

Lemma submit_payload_facts (U : unicode_tables) (f : form) :
  match fst (submit_payload U f) with
  | Some p =>
      p_city p = normalizeCity (city_value f)
      /\ valid_name (cityRegex U) (p_city p) = true
      /\ normalizeCity (p_city p) = p_city p
      /\ Str.trim (p_city p) = p_city p
      /\ allowedUnits (p_units p) = true
      /\ allowedLangs (p_lang p) = true
  | None => valid_name (cityRegex U) (normalizeCity (city_value f)) = false
  end.
Proof.
  unfold submit_payload, validateCityField.
  destruct (sanitizeSelects_allowed f) as (Hu & Hl & ->).
  pose proof (city_message_valid U (normalizeCity (city_value f))) as Hv.
  destruct (city_message U (normalizeCity (city_value f))) as [msg|];
    cbn [fst snd city_value units_value lang_value p_city p_units p_lang].
  - apply not_true_is_false. intros H. by apply Hv in H.
  - rewrite trim_normalizeCity. split_and!; try done.
    + by apply Hv.
    + apply normalizeCity_fix.
    + apply trim_normalizeCity.
Qed.



(** ** Writing the list and reading it back (app.js 97-118) *)

Lemma filter_map_fix {A} (p : A -> bool) (f : A -> A) l :
  List.filter p (map f l) = l -> Forall (fun e => f e = e /\ p e = true) l.
Proof.
  induction l as [|e r IH]; [done|]. simpl.
  destruct (p (f e)) eqn:E.
  - intros H. injection H as He Hr. rewrite He in E. constructor; auto.
  - intros H. exfalso.
    pose proof (sublist_length _ _ (filter_sublist p (map f r))) as Hl.
    rewrite H, length_fmap in Hl. simpl in Hl. lia.
Qed.

(** X9.  Reading back what [setHistory] wrote gives the written entries
    with their names trimmed and without those whose name is then empty;
    the clock is not read and nothing else changes.  The list comes back
    as it was written exactly when its names are trimmed and not empty. *)
Theorem setHistory_getHistory_roundtrip (arr : list entry) (w : world) :
  result getHistory (after (setHistory arr) w)
    = List.filter (fun e => Str.truthy (name e)) (map retrim arr)
  /\ after getHistory (after (setHistory arr) w) = after (setHistory arr) w
  /\ (result getHistory (after (setHistory arr) w) = arr
      <-> trimmed arr /\ named arr).
Proof.
  change (after (setHistory arr) w)
    with (World (store_of arr) (clock w) (ticks w) (alerts w)).
  unfold result, after. rewrite getHistory_store_of. cbn [fst snd].
  split_and!; [done | done |]. split.
  - intros H. apply filter_map_fix in H. split.
    + eapply Forall_impl; [exact H|]. intros e [He _]. simpl in He.
      destruct e as [n p t]. unfold retrim in He. simpl in *. congruence.
    + eapply Forall_impl; [exact H|]. by intros e [_ He].
  - intros [Ht Hn]. by apply reload_fix.
Qed.

Lemma trimmed_iff_names l :
  trimmed l <-> Forall (fun n => Str.trim n = n) (map name l).
Proof. unfold trimmed. by rewrite Forall_fmap. Qed.

Lemma named_iff_names l :
  named l <-> Forall (fun n => Str.truthy n = true) (map name l).
Proof. unfold named. by rewrite Forall_fmap. Qed.

(** The clock is read once for each stored object without a [ts] field. *)
Lemma sanitize_all_ticks l w :
  ticks (after (sanitize_all l) w)
  = (ticks w + length (List.filter lacks_ts l))%nat.
Proof.
  revert w. induction l as [|o r IH]; intros w; [unfold after; simpl; lia|].
  unfold after in *. cbn [sanitize_all List.filter]. unfold bind, sanitize, lacks_ts.
  destruct (so_ts o) as [t|]; simpl.
  - specialize (IH w). destruct (sanitize_all r w) as [es w']. exact IH.
  - unfold bind. simpl. set (w1 := World _ _ _ _).
    specialize (IH w1). destruct (sanitize_all r w1) as [es w'].
    unfold ret. cbn [fst snd] in *. rewrite IH. subst w1. cbn [ticks].
    change (fun o0 : stored_obj =>
              match so_ts o0 with Some _ => false | None => true end)
      with lacks_ts. lia.
Qed.

(** X10.  Whatever objects the stored array holds, the names [getHistory]
    loads are trimmed and not empty, they are the stored names (a missing
    name counting as empty) in the stored order, no entry is invented, and
    the clock is read once for each object that lacks a time stamp. *)
Theorem getHistory_stored_objects (objs : list stored_obj) (clk : nat -> Z)
    (k : nat) (al : list alert_msg) :
  let w := World (Text (JObjects objs)) clk k al in
  trimmed (result getHistory w)
  /\ named (result getHistory w)
  /\ map name (result getHistory w)
     = List.filter Str.truthy
         (map (fun o => Str.trim (default EmptyString (so_name o))) objs)
  /\ (length (result getHistory w) <= length objs)%nat
  /\ ticks (after getHistory w)
     = (k + length (List.filter lacks_ts objs))%nat.
Proof.
  intros w.
  assert (Hn : map name (result getHistory w)
               = List.filter Str.truthy
                   (map (fun o => Str.trim (default EmptyString (so_name o))) objs)).
  { by rewrite getHistory_names. }
  split_and!; [| | exact Hn | |].
  - apply trimmed_iff_names. rewrite Hn. apply Forall_forall. intros n Hin.
    apply list_elem_of_In, filter_In in Hin as [Hin _].
    apply in_map_iff in Hin as (o & <- & _). apply trim_idem.
  - apply named_iff_names. rewrite Hn. apply Forall_forall. intros n Hin.
    by apply list_elem_of_In, filter_In in Hin as [_ Hin].
  - rewrite <- (List.length_map name), Hn.
    etrans; [apply sublist_length, filter_sublist|]. by rewrite List.length_map.
  - unfold after, w, getHistory, bind, getItem. simpl.
    pose proof (sanitize_all_ticks objs (World (Text (JObjects objs)) clk k al))
      as H.
    unfold after in H.
    destruct (sanitize_all objs _) as [arr w']. exact H.
Qed.

(** ** Deleting and clearing (app.js 141-151) *)

(** X11.  [deleteCity] returns and stores the loaded list without the
    entries whose name matches, all of them: nothing that matches is left,
    nothing else is removed, and the order of the rest is kept. *)
Theorem deleteCity_removes_matches (nm : string) (w : world) :
  Forall (fun x => same_name nm x = false) (result (deleteCity nm) w)
  /\ result (deleteCity nm) w `sublist_of` result getHistory w
  /\ (forall x, x ∈ result getHistory w -> same_name nm x = false ->
                x ∈ result (deleteCity nm) w)
  /\ localStorage (after (deleteCity nm) w) = store_of (result (deleteCity nm) w).
Proof.
  destruct (getHistory w) as [arr w1] eqn:E.
  assert (Hr : result getHistory w = arr) by (unfold result; by rewrite E).
  rewrite !Hr. unfold result, after. rewrite (deleteCity_eq _ _ _ _ E).
  cbn [fst snd localStorage]. split_and!; [| apply filter_sublist | | done].
  - apply Forall_forall. intros x Hx.
    apply list_elem_of_In, filter_In in Hx as [_ Hx]. by apply negb_true_iff.
  - intros x Hx Hm. apply list_elem_of_In, filter_In.
    split; [by apply list_elem_of_In | by rewrite Hm].
Qed.

Lemma deleteCity_removes_matches_witness :
  Entry "Paris" false 100 ∈ result getHistory paris_tokyo
  /\ same_name "tokyo" (Entry "Paris" false 100) = false
  /\ Entry "Paris" false 100 ∈ result (deleteCity "tokyo") paris_tokyo.
Proof.
  assert (H1 : Entry "Paris" false 100 ∈ result getHistory paris_tokyo).
  { vm_compute. right. left. }
  assert (H2 : same_name "tokyo" (Entry "Paris" false 100) = false)
    by reflexivity.
  split_and!; [exact H1 | exact H2 |].
  exact (proj1 (proj2 (proj2 (deleteCity_removes_matches "tokyo" paris_tokyo)))
           _ H1 H2).
Defined.

(** X12.  After [clearHistoryAll] the history loads as the empty list,
    whatever was stored before, and the next [upsertCity] returns exactly
    one entry: the trimmed name, unpinned, stamped with the clock. *)
Theorem clearHistoryAll_then_load (w : world) :
  result clearHistoryAll w = []
  /\ result getHistory (after clearHistoryAll w) = []
  /\ forall nm, result (upsertCity nm) (after clearHistoryAll w)
                = [Entry (Str.trim nm) false (clock w (ticks w))].
Proof. split_and!; try reflexivity. Qed.


(** ** One operation at a time (app.js 121-199) *)

(** X13.  Each single operation keeps names unique, on every store: if no
    two entries of the loaded list have names that are equal without
    regard to case, the same holds of the list the operation returns. *)
Theorem run_op_keeps_unique (U : unicode_tables) (o : op) (w : world) :
  unique (result getHistory w) -> unique (result (run_op U o) w).
Proof.
  destruct (getHistory w) as [arr w1] eqn:E.
  assert (Hr : result getHistory w = arr) by (unfold result; by rewrite E).
  rewrite Hr. intros Hu.
  destruct (run_op_cases U o w arr w1 E) as [[-> _] | [_ Hshape]]; [done|].
  destruct Hshape as
    [(nm & t & _ & ->) | [(nm & _ & ->) | [(nm & i & x & t & _ & Hi & ->)
     | [(old & typed & i & src & t & _ & Hi & Hv & ->) | [_ ->]]]]].
  - eapply unique_sublist; [apply sublist_take|].
    eapply unique_perm; [apply sort_perm|]. by apply upsert_candidates_unique.
  - eapply unique_sublist; [apply filter_sublist | done].
  - apply findIndex_same_name_Some in Hi as [Hx _].
    eapply unique_perm; [apply sort_perm|].
    unfold unique. by rewrite (keys_alter_same _ i arr x Hx).
  - eapply unique_perm; [apply sort_perm|]. by eapply rename_candidates_unique.
  - constructor.
Qed.

Lemma run_op_keeps_unique_witness :
  unique (result getHistory legacy_padded)
  /\ unique (result (run_op latin1_tables (Upsert "A ")) legacy_padded).
Proof.
  assert (H : unique (result getHistory legacy_padded)).
  { apply (bool_decide_unpack _). by vm_compute. }
  split; [exact H|]. exact (run_op_keeps_unique latin1_tables (Upsert "A ") legacy_padded H).
Defined.

Lemma rename_candidates_length old i src nn t arr :
  findIndex (same_name old) arr = Some (i, src) ->
  length (rename_candidates i src nn t arr) = length arr
  \/ S (length (rename_candidates i src nn t arr)) = length arr.
Proof.
  intros Hi. apply findIndex_same_name_Some in Hi as [Hsrc _].
  unfold rename_candidates.
  destruct (merge_target i (findIndex (same_name nn) arr)) as [j|].
  - right. pose proof (length_delete (alter (fun e => Entry (name e)
        (pinned e || pinned src) t) j arr) i) as H.
    rewrite length_alter in H.
    assert (Hlt : (i < length arr)%nat) by (by eapply lookup_lt_Some).
    destruct (alter _ j arr !! i) eqn:Hl.
    + specialize (H ltac:(eauto)). lia.
    + apply lookup_ge_None in Hl. rewrite length_alter in Hl. lia.
  - left. apply length_alter.
Qed.

(** X14.  Only [upsertCity] cuts the list: [togglePin] returns as many
    entries as were loaded, and [renameCity] as many or, when it merges,
    one fewer, however long the stored list is; [deleteCity] never
    returns more than were loaded. *)
Theorem only_upsert_truncates (w : world) :
  (forall nm, length (result (togglePin nm) w) = length (result getHistory w))
  /\ (forall old nf rx answer,
        length (result (renameCity old nf rx answer) w)
          = length (result getHistory w)
        \/ S (length (result (renameCity old nf rx answer) w))
          = length (result getHistory w))
  /\ (forall nm, (length (result (deleteCity nm) w)
                  <= length (result getHistory w))%nat).
Proof.
  destruct (getHistory w) as [arr w1] eqn:E.
  assert (Hr : result getHistory w = arr) by (unfold result; by rewrite E).
  rewrite !Hr. split_and!.
  - intros nm. unfold result. rewrite (togglePin_eq _ _ _ _ E).
    destruct (findIndex (same_name nm) arr) as [[i x]|]; [|done].
    cbn [fst]. by rewrite sort_length, length_alter.
  - intros old nf rx answer.
    destruct (renameCity_cases old nf rx answer _ _ _ E)
      as [[-> _] | (i & src & typed & Hi & _ & _ & Heq)]; [by left|].
    unfold result. rewrite Heq. cbn [fst]. rewrite sort_length.
    by eapply rename_candidates_length.
  - intros nm. unfold result. rewrite (deleteCity_eq _ _ _ _ E). cbn [fst].
    apply sublist_length, filter_sublist.
Qed.

Lemma alter_permutation {A} (f : A -> A) i (l : list A) x :
  l !! i = Some x -> Permutation (alter f i l) (f x :: delete i l).
Proof.
  intros Hx. rewrite <- (delete_alter_same f i l).
  apply delete_Permutation. by rewrite list_lookup_alter_eq, Hx.
Qed.

(** X15.  Upserting a name that is already in a list of at most eight
    entries replaces nothing but that entry: it gets the trimmed name as
    typed and the clock reading, keeps its pinned flag, and every other
    entry stays as it was. *)
Theorem upsert_existing_keeps_pin (nm : string) (w : world) (i : nat)
    (x : entry) :
  findIndex (same_name (Str.trim nm)) (result getHistory w) = Some (i, x) ->
  (length (result getHistory w) <= 8)%nat ->
  Permutation (result getHistory w) (x :: delete i (result getHistory w))
  /\ Permutation (result (upsertCity nm) w)
       (Entry (Str.trim nm) (pinned x) (now_after_load w)
        :: delete i (result getHistory w)).
Proof.
  intros Hi Hlen. destruct (upsertCity_step nm w) as (-> & _).
  unfold upsert_candidates. rewrite Hi.
  apply findIndex_same_name_Some in Hi as [Hx _].
  split; [by apply delete_Permutation|].
  rewrite take_ge by (rewrite sort_length, length_alter; lia).
  rewrite sort_perm.
  apply (alter_permutation
           (fun e => Entry (Str.trim nm) (pinned e) (now_after_load w)) i _ x Hx).
Qed.

Lemma upsert_existing_keeps_pin_witness :
  (findIndex (same_name (Str.trim " TOKYO ")) (result getHistory paris_tokyo)
     = Some (0%nat, Entry "Tokyo" true 50)
   /\ (length (result getHistory paris_tokyo) <= 8)%nat)
  /\ Permutation (result (upsertCity " TOKYO ") paris_tokyo)
       (Entry (Str.trim " TOKYO ") (pinned (Entry "Tokyo" true 50))
              (now_after_load paris_tokyo)
        :: delete 0%nat (result getHistory paris_tokyo)).
Proof.
  assert (H1 : findIndex (same_name (Str.trim " TOKYO "))
                 (result getHistory paris_tokyo)
               = Some (0%nat, Entry "Tokyo" true 50)) by (by vm_compute).
  assert (H2 : (length (result getHistory paris_tokyo) <= 8)%nat)
    by (vm_compute; lia).
  split; [by split|].
  exact (proj2 (upsert_existing_keeps_pin " TOKYO " paris_tokyo 0
                  (Entry "Tokyo" true 50) H1 H2)).
Defined.

Lemma StronglySorted_lookup_lt {A} (R : A -> A -> Prop) l i j a b :
  StronglySorted R l -> (i < j)%nat -> l !! i = Some a -> l !! j = Some b ->
  R a b.
Proof.
  intros Hs. revert i j. induction Hs as [|x r Hr IH Hx]; intros i j Hlt Ha Hb;
    [done|].
  destruct i as [|i], j as [|j]; simpl in *; try lia.
  - injection Ha as ->. rewrite Forall_forall in Hx. apply Hx.
    by eapply list_elem_of_lookup_2.
  - apply (IH i j); [lia | done | done].
Qed.

(** X16.  When the clock is ahead of every loaded time stamp, the entry
    an upsert has just stamped stands, in the result, before every other
    entry with the same pinned flag: it rises to the top of the pinned
    entries or of the unpinned ones. *)
Theorem upsert_rises_to_top_of_group (nm : string) (w : world)
    (i j : nat) (e x : entry) :
  Forall (fun y => ts y < now_after_load w) (result getHistory w) ->
  result (upsertCity nm) w !! j = Some e -> ts e = now_after_load w ->
  result (upsertCity nm) w !! i = Some x -> ts x <> now_after_load w ->
  pinned x = pinned e ->
  (j < i)%nat.
Proof.
  intros Hold Hj He Hi Hx Hp.
  destruct (upsertCity_step nm w) as (Hres & _).
  assert (Hord : ordered (result (upsertCity nm) w)).
  { rewrite Hres. apply ordered_take, sort_ordered. }
  destruct (decide (j < i)%nat) as [|Hge]; [done|]. exfalso.
  destruct (decide (i = j)) as [-> | Hne].
  { rewrite Hj in Hi. injection Hi as ->. done. }
  assert (Hlt : (i < j)%nat) by lia.
  pose proof (StronglySorted_lookup_lt _ _ _ _ _ _ Hord Hlt Hi Hj) as Hrk.
  assert (Hin : x ∈ upsert_candidates (Str.trim nm) (now_after_load w)
                      (result getHistory w)).
  { rewrite <- (sort_perm (upsert_candidates _ _ _)).
    rewrite Hres in Hi. apply lookup_take_Some in Hi as [Hi _].
    by eapply list_elem_of_lookup_2. }
  apply upsert_candidates_elem in Hin as [Hin | [_ Hts]]; [|done].
  rewrite Forall_forall in Hold. specialize (Hold x Hin).
  destruct Hrk as [[Hpx Hpe] | [_ Hts]]; [congruence | lia].
Qed.

Lemma upsert_rises_to_top_of_group_witness :
  (Forall (fun y => ts y < now_after_load tokyo_tijuana)
          (result getHistory tokyo_tijuana)
   /\ result (upsertCity "Rome") tokyo_tijuana !! 1%nat
      = Some (Entry "Rome" false 1000)
   /\ result (upsertCity "Rome") tokyo_tijuana !! 2%nat
      = Some (Entry "Tijuana" false 50))
  /\ (1 < 2)%nat.
Proof.
  assert (H1 : Forall (fun y => ts y < now_after_load tokyo_tijuana)
                      (result getHistory tokyo_tijuana)).
  { vm_compute. repeat constructor. }
  assert (H2 : result (upsertCity "Rome") tokyo_tijuana !! 1%nat
               = Some (Entry "Rome" false 1000)) by (by vm_compute).
  assert (H3 : result (upsertCity "Rome") tokyo_tijuana !! 2%nat
               = Some (Entry "Tijuana" false 50)) by (by vm_compute).
  split; [by split_and!|].
  apply (upsert_rises_to_top_of_group "Rome" tokyo_tijuana 2 1
           (Entry "Rome" false 1000) (Entry "Tijuana" false 50) H1 H2);
    [reflexivity | exact H3 | vm_compute; discriminate | reflexivity].
Defined.


Lemma upsert_result_clean nm w :
  trimmed (result getHistory w) -> named (result getHistory w) ->
  nonblank nm ->
  trimmed (result (upsertCity nm) w) /\ named (result (upsertCity nm) w)
  /\ result getHistory (after (upsertCity nm) w) = result (upsertCity nm) w.
Proof.
  intros Ht Hn Hnb. destruct (upsertCity_step nm w) as (Hres & _ & Hload).
  assert (H : trimmed (result (upsertCity nm) w)
              /\ named (result (upsertCity nm) w)).
  { rewrite Hres. split.
    - eapply trimmed_sublist; [apply sublist_take|].
      eapply trimmed_perm; [apply sort_perm|].
      apply upsert_candidates_trimmed; [apply trim_idem | done].
    - eapply named_sublist; [apply sublist_take|].
      eapply named_perm; [apply sort_perm|].
      by apply upsert_candidates_named. }
  destruct H as [Ht' Hn']. split_and!; [done | done |].
  rewrite Hload. by apply reload_fix.
Qed.

(** X17.  Upserting again a name with the same key (the same name up to
    case and surrounding white space) never changes the length of the
    list, whether the first upsert kept its entry or lost it to the cut. *)
Theorem upsert_again_keeps_length (nm nm' : string) (w : world) :
  trimmed (result getHistory w) -> named (result getHistory w) ->
  nonblank nm -> upsert_key nm' = upsert_key nm ->
  length (result (upsertCity nm') (after (upsertCity nm) w))
  = length (result (upsertCity nm) w).
Proof.
  intros Ht Hn Hnb Hkey.
  destruct (upsert_result_clean nm w Ht Hn Hnb) as (_ & _ & Hload).
  destruct (upsertCity_step nm w) as (Hres1 & _).
  destruct (upsertCity_step nm' (after (upsertCity nm) w)) as (Hres2 & _).
  rewrite Hload in Hres2. rewrite Hres2.
  rewrite length_take, sort_length, upsert_candidates_length.
  set (r1 := result (upsertCity nm) w) in *.
  set (cand1 := upsert_candidates (Str.trim nm) (now_after_load w)
                  (result getHistory w)) in *.
  assert (Hlen1 : length r1 = (8 `min` length cand1)%nat).
  { by rewrite Hres1, length_take, sort_length. }
  rewrite existsb_findIndex.
  destruct (findIndex (same_name (Str.trim nm')) r1) as [[i x]|] eqn:Hf; [lia|].
  apply findIndex_None_key in Hf.
  destruct (decide (length cand1 <= 8)%nat) as [Hle|Hgt]; [|lia].
  exfalso. apply Hf.
  change (Str.toLowerCase (Str.trim nm')) with (upsert_key nm').
  rewrite Hkey. rewrite Hres1, take_ge by (by rewrite sort_length).
  rewrite (sort_perm cand1). apply upsert_candidates_keys.
Qed.

Lemma upsert_again_keeps_length_witness :
  (trimmed (result getHistory eight_pinned)
   /\ named (result getHistory eight_pinned)
   /\ nonblank "Tijuana" /\ upsert_key " tijuana" = upsert_key "Tijuana")
  /\ length (result (upsertCity " tijuana")
               (after (upsertCity "Tijuana") eight_pinned))
     = length (result (upsertCity "Tijuana") eight_pinned).
Proof.
  assert (H1 : trimmed (result getHistory eight_pinned))
    by (repeat constructor).
  assert (H2 : named (result getHistory eight_pinned))
    by (repeat constructor).
  assert (H3 : nonblank "Tijuana") by reflexivity.
  assert (H4 : upsert_key " tijuana" = upsert_key "Tijuana") by reflexivity.
  split; [by split_and!|].
  exact (upsert_again_keeps_length "Tijuana" " tijuana" eight_pinned
           H1 H2 H3 H4).
Defined.

Lemma unique_same_key l a b :
  unique l -> a ∈ l -> b ∈ l -> key a = key b -> a = b.
Proof.
  intros Hu (i & Ha)%list_elem_of_lookup (j & Hb)%list_elem_of_lookup Hk.
  rewrite unique_alt in Hu. specialize (Hu i j a b Ha Hb Hk). subst j.
  congruence.
Qed.

(** X18.  Toggling the pin of an entry twice gives it back its pinned
    flag: in a list with unique, trimmed, non-empty names, after two
    [togglePin] calls for a name that is there, the entry has its old name
    and flag and the time stamp of the second call, and every other entry
    is as it was. *)
Theorem togglePin_twice (nm : string) (w : world) (i : nat) (x : entry) :
  unique (result getHistory w) -> trimmed (result getHistory w) ->
  named (result getHistory w) ->
  findIndex (same_name nm) (result getHistory w) = Some (i, x) ->
  Permutation (result (togglePin nm) (after (togglePin nm) w))
    (Entry (name x) (pinned x) (now_after_load (after (togglePin nm) w))
     :: delete i (result getHistory w)).
Proof.
  destruct (getHistory w) as [arr w1] eqn:E.
  assert (Hr : result getHistory w = arr) by (unfold result; by rewrite E).
  rewrite !Hr. intros Hu Ht Hn Hi.
  pose proof (togglePin_eq nm w arr w1 E) as Heq1. rewrite Hi in Heq1.
  cbv zeta in Heq1.
  set (f1 := fun e => Entry (name e) (negb (pinned e)) (clock w1 (ticks w1))) in *.
  set (r1 := js_sort compare_entries (alter f1 i arr)) in *.
  apply findIndex_same_name_Some in Hi as [Hx Hm].
  assert (Hp1 : Permutation r1 (f1 x :: delete i arr)).
  { unfold r1. rewrite sort_perm. by apply alter_permutation. }
  assert (Hu1 : unique r1).
  { eapply unique_perm; [apply sort_perm|].
    unfold unique. by rewrite (keys_alter_same _ i arr x Hx). }
  assert (Ht1 : trimmed r1).
  { eapply trimmed_perm; [apply sort_perm|]. by apply trimmed_alter. }
  assert (Hn1 : named r1).
  { eapply named_perm; [apply Hp1|]. constructor.
    - unfold named in Hn. rewrite Forall_lookup in Hn. exact (Hn i x Hx).
    - eapply named_sublist; [apply sublist_delete | done]. }
  unfold after at 1 2. rewrite Heq1. cbn [snd].
  set (w' := World (store_of r1) (clock w1) (S (ticks w1)) (alerts w1)).
  assert (E' : getHistory w' = (r1, w')).
  { unfold w'. rewrite getHistory_store_of. by rewrite reload_fix. }
  assert (Hin : f1 x ∈ r1) by (rewrite Hp1; by left).
  destruct (list_find_elem_of (fun y => same_name nm y = true) r1 (f1 x) Hin Hm)
    as [[i' x'] Hi'].
  fold (findIndex (same_name nm) r1) in Hi'.
  pose proof (togglePin_eq nm w' r1 w' E') as Heq2. rewrite Hi' in Heq2.
  cbv zeta in Heq2.
  apply findIndex_same_name_Some in Hi' as [Hx' Hm'].
  assert (Hxx : x' = f1 x).
  { apply (unique_same_key r1); [done | | done |].
    - by eapply list_elem_of_lookup_2.
    - apply same_name_key in Hm, Hm'. unfold key in *. simpl. congruence. }
  subst x'.
  unfold result. rewrite Heq2. cbn [fst]. rewrite sort_perm.
  rewrite (alter_permutation _ i' r1 (f1 x) Hx').
  assert (Hnow : now_after_load w' = clock w' (ticks w')).
  { unfold now_after_load, after. by rewrite E'. }
  rewrite Hnow. cbn [name pinned f1]. rewrite negb_involutive.
  constructor.
  apply (Permutation_cons_inv (a := f1 x)).
  rewrite <- Hp1. symmetry. by apply delete_Permutation.
Qed.

Lemma togglePin_twice_witness :
  (unique (result getHistory rome_paris) /\ trimmed (result getHistory rome_paris)
   /\ named (result getHistory rome_paris)
   /\ findIndex (same_name "rome") (result getHistory rome_paris)
      = Some (0%nat, Entry "Rome" false 200))
  /\ Permutation (result (togglePin "rome") (after (togglePin "rome") rome_paris))
       (Entry "Rome" false 1001 :: delete 0%nat (result getHistory rome_paris)).
Proof.
  assert (H1 : unique (result getHistory rome_paris)).
  { apply (bool_decide_unpack _). by vm_compute. }
  assert (H2 : trimmed (result getHistory rome_paris)) by (repeat constructor).
  assert (H3 : named (result getHistory rome_paris)) by (repeat constructor).
  assert (H4 : findIndex (same_name "rome") (result getHistory rome_paris)
               = Some (0%nat, Entry "Rome" false 200)) by (by vm_compute).
  split; [by split_and!|].
  exact (togglePin_twice "rome" rome_paris 0 (Entry "Rome" false 200)
           H1 H2 H3 H4).
Defined.


(** ** Renaming: dialogs and the rename in place (app.js 167-199) *)

Lemma rejection_valid rx nn : rejection rx nn = None <-> valid_name rx nn = true.
Proof.
  unfold rejection, valid_name.
  destruct (Str.truthy nn); simpl; [|done].
  destruct (80 <? Str.length nn); simpl; [done|].
  by destruct (rx nn).
Qed.

(** X19.  [renameCity] never both alerts and writes.  When the source is
    found and a name was typed, a rejected name raises exactly one alert
    (empty before too long before malformed) and leaves list and store
    alone, and an accepted name raises none and stores the result; when
    the source is missing or the dialog is cancelled it does nothing at
    all. *)
Theorem renameCity_alerts (old : string) (nf : string -> string)
    (rx : string -> bool) (answer : option string) (w : world) :
  let w' := after (renameCity old nf rx answer) w in
  let r := result (renameCity old nf rx answer) w in
  match findIndex (same_name old) (result getHistory w), answer with
  | Some _, Some typed =>
      match rejection rx (nf typed) with
      | Some m => alerts w' = alerts w ++ [m]
                  /\ localStorage w' = localStorage w
                  /\ r = result getHistory w
      | None => alerts w' = alerts w /\ localStorage w' = store_of r
      end
  | _, _ => alerts w' = alerts w
            /\ localStorage w' = localStorage w
            /\ r = result getHistory w
  end.
Proof.
  cbv zeta. destruct (getHistory w) as [arr w1] eqn:E.
  assert (Hr : result getHistory w = arr) by (unfold result; by rewrite E).
  rewrite !Hr.
  pose proof (getHistory_world w) as (Hs & Ha & _).
  unfold after in Hs, Ha. rewrite E in Hs, Ha. cbn [snd] in Hs, Ha.
  destruct (findIndex (same_name old) arr) as [[i src]|] eqn:Hi.
  2:{ unfold result, after, renameCity, bind. rewrite E, Hi. by split_and!. }
  destruct answer as [typed|].
  2:{ unfold result, after, renameCity, bind. rewrite E, Hi. by split_and!. }
  destruct (rejection rx (nf typed)) as [m|] eqn:Hrej.
  - unfold result, after, renameCity, bind. rewrite E, Hi.
    unfold rejection in Hrej.
    destruct (Str.truthy (nf typed)); simpl in *.
    2:{ injection Hrej as <-. split_and!; [by rewrite Ha | done | done]. }
    destruct (80 <? Str.length (nf typed)); simpl in *.
    { injection Hrej as <-. split_and!; [by rewrite Ha | done | done]. }
    destruct (rx (nf typed)); simpl in *; [done|].
    injection Hrej as <-. split_and!; [by rewrite Ha | done | done].
  - apply rejection_valid in Hrej.
    unfold result, after.
    rewrite (renameCity_valid_eq old nf rx typed w arr w1 i src E Hi Hrej).
    cbn [fst snd alerts localStorage]. by split.
Qed.

(** X20.  Renaming to a valid name that no other entry bears changes one
    entry only: the source gets the normalized name and the clock
    reading and keeps its pinned flag, every other entry stays, and the
    sorted result, as long as the loaded list, is stored. *)
Theorem rename_in_place (U : unicode_tables)
    (old typed : string) (w : world) (i : nat)
    (src : entry) :
  findIndex (same_name old) (result getHistory w) = Some (i, src) ->
  valid_name (cityRegex U) (normalizeCity typed) = true ->
  (forall j x, findIndex (same_name (normalizeCity typed)) (result getHistory w)
               = Some (j, x) -> j = i) ->
  Permutation (result (renameCity old normalizeCity (cityRegex U)
                                  (Some typed)) w)
    (Entry (normalizeCity typed) (pinned src) (now_after_load w)
     :: delete i (result getHistory w))
  /\ ordered (result (renameCity old normalizeCity (cityRegex U)
                                 (Some typed)) w)
  /\ localStorage (after (renameCity old normalizeCity (cityRegex U)
                                     (Some typed)) w)
     = store_of (result (renameCity old normalizeCity (cityRegex U)
                                    (Some typed)) w).
Proof.
  unfold now_after_load. destruct (getHistory w) as [arr w1] eqn:E.
  assert (Hr : result getHistory w = arr) by (unfold result; by rewrite E).
  assert (Ha : after getHistory w = w1) by (unfold after; by rewrite E).
  rewrite !Hr, !Ha. intros Hi Hv Hj.
  unfold result, after.
  rewrite (renameCity_valid_eq old normalizeCity (cityRegex U) typed w arr w1 i src
             E Hi Hv).
  cbn [fst snd localStorage].
  assert (Hm : merge_target i (findIndex (same_name (normalizeCity typed)) arr)
               = None).
  { unfold merge_target.
    destruct (findIndex (same_name (normalizeCity typed)) arr) as [[j x]|] eqn:Hf;
      [|done].
    specialize (Hj j x eq_refl). subst j. by destruct (decide (i = i)). }
  unfold rename_candidates. rewrite Hm.
  apply findIndex_same_name_Some in Hi as [Hsrc _].
  split_and!; [| apply sort_ordered | done].
  rewrite sort_perm.
  apply (alter_permutation
           (fun e => Entry (normalizeCity typed) (pinned e) (clock w1 (ticks w1)))
           i arr src Hsrc).
Qed.

Lemma rename_in_place_witness :
  (findIndex (same_name "paris") (result getHistory rome_paris)
     = Some (1%nat, Entry "Paris" true 100)
   /\ valid_name (cityRegex latin1_tables) (normalizeCity " lyon,fr") = true)
  /\ Permutation
       (result (renameCity "paris" normalizeCity (cityRegex latin1_tables)
                           (Some " lyon,fr"))
               rome_paris)
       (Entry (normalizeCity " lyon,fr") (pinned (Entry "Paris" true 100))
              (now_after_load rome_paris)
        :: delete 1%nat (result getHistory rome_paris)).
Proof.
  assert (H1 : findIndex (same_name "paris") (result getHistory rome_paris)
               = Some (1%nat, Entry "Paris" true 100)) by (by vm_compute).
  assert (H2 : valid_name (cityRegex latin1_tables) (normalizeCity " lyon,fr") = true)
    by (by vm_compute).
  split; [by split|].
  refine (proj1 (rename_in_place latin1_tables "paris" " lyon,fr" rome_paris 1
                   (Entry "Paris" true 100) H1 H2 _)).
  intros j x Hf. vm_compute in Hf. discriminate.
Defined.

(** ** The comparator of the three sorts (app.js 133, 160, 196) *)

(** X21.  The comparator is consistent: swapping its arguments flips the
    sign, it is transitive, and it answers zero exactly for two entries
    with the same pinned flag and the same time stamp.  Every conforming
    [sort] therefore returns a list sorted by it. *)
Theorem compare_entries_consistent (a b c : entry) :
  compare_entries a b = - compare_entries b a
  /\ (compare_entries a b <= 0 -> compare_entries b c <= 0 ->
      compare_entries a c <= 0)
  /\ (compare_entries a b = 0 <-> pinned a = pinned b /\ ts a = ts b).
Proof.
  unfold compare_entries.
  destruct (pinned a), (pinned b), (pinned c); simpl; split_and!;
    try lia; try (split; [intros; split; (done || lia) | intros [? ?]; (done || lia)]);
    split; try lia; try (intros [? ?]; done).
Qed.

Lemma compare_entries_consistent_witness :
  (compare_entries (Entry "a" true 5) (Entry "b" false 9) <= 0
   /\ compare_entries (Entry "b" false 9) (Entry "c" false 3) <= 0)
  /\ compare_entries (Entry "a" true 5) (Entry "c" false 3) <= 0.
Proof.
  assert (H1 : compare_entries (Entry "a" true 5) (Entry "b" false 9) <= 0)
    by (vm_compute; discriminate).
  assert (H2 : compare_entries (Entry "b" false 9) (Entry "c" false 3) <= 0)
    by (vm_compute; discriminate).
  split; [by split|].
  exact (proj1 (proj2 (compare_entries_consistent _ _ _)) H1 H2).
Defined.

(** ** From the search form to the history (app.js 361-364, 456-494) *)

(** X22.  A search from a valid form puts the normalized field text into
    the history: when fewer than eight entries are stored, the list drawn
    after [saveHistory] holds an entry whose name is the normalizer's
    output for the raw field text, stamped with the clock. *)
Theorem search_stores_normalized_name (U : unicode_tables)
    (f : form) (p : payload) (w : world) :
  fst (submit_payload U f) = Some p ->
  (length (result getHistory w) < 8)%nat ->
  exists e, e ∈ result (saveHistory (p_city p)) w
            /\ name e = normalizeCity (city_value f)
            /\ ts e = now_after_load w.
Proof.
  intros Hp Hlen. pose proof (submit_payload_facts U f) as H. rewrite Hp in H.
  destruct H as (Hcity & Hv & _ & Htrim & _).
  assert (Hres : result (saveHistory (p_city p)) w
                 = result getHistory (after (upsertCity (p_city p)) w)).
  { unfold result, after, saveHistory, bind.
    destruct (upsertCity (p_city p) w) as [r w1]. cbn [snd].
    by destruct (getHistory w1). }
  destruct (upsertCity_step (p_city p) w) as (Hr & _ & Hload).
  rewrite Hres, Hload, Hr, Htrim.
  destruct (upsert_candidates_touched (p_city p) (now_after_load w)
              (result getHistory w)) as (e & He & Hn & Ht).
  exists e. split_and!; [| congruence | done].
  rewrite take_ge.
  2:{ rewrite sort_length, upsert_candidates_length.
      destruct (existsb _ _); lia. }
  apply list_elem_of_In, filter_In. split.
  - apply list_elem_of_In, list_elem_of_fmap. exists e. split.
    + destruct e as [n pn t]. unfold retrim. simpl in *. subst n.
      by rewrite Htrim.
    + by rewrite sort_perm.
  - rewrite Hn. unfold valid_name in Hv.
    apply andb_true_iff in Hv as [Hv _]. by apply andb_true_iff in Hv as [Hv _].
Qed.

Lemma search_stores_normalized_name_witness :
  (fst (submit_payload latin1_tables form_tijuana) = Some (Payload "tijuana , MX" "metric" "es")
   /\ (length (result getHistory paris_tokyo) < 8)%nat)
  /\ exists e, e ∈ result (saveHistory "tijuana , MX") paris_tokyo
               /\ name e = normalizeCity (city_value form_tijuana)
               /\ ts e = now_after_load paris_tokyo.
Proof.
  assert (H1 : fst (submit_payload latin1_tables form_tijuana)
               = Some (Payload "tijuana , MX" "metric" "es")) by (by vm_compute).
  assert (H2 : (length (result getHistory paris_tokyo) < 8)%nat)
    by (vm_compute; lia).
  split; [by split|].
  exact (search_stores_normalized_name latin1_tables form_tijuana _ paris_tokyo H1 H2).
Defined.
